(** * Flow helpers of the Dinitz tutorial notebook

    A shallow embedding of the helper functions defined in
    [content/algorithms/flow/dinitz_alg.ipynb]:
    [check_valid_flow], [residual_graph], [level_bfs] and [aug_path_dfs],
    together with the part of the [networkx.DiGraph] interface they use.

    Capacities and flow values are Python integers, modelled by [Z]: on them
    the arithmetic of the code is exact.  [math.isclose] converts its
    arguments to doubles, so it is modelled on the binary64 numbers
    ([PrimFloat]); [residual_graph] on floating-point capacities is modelled
    separately, in the module [Binary64].  Node labels are strings, as in the
    notebook. *)

From Stdlib Require Import Floats.
From Stdlib Require Import ZArith.
From stdpp Require Import base gmap strings list.

(** A decimal literal denotes the nearest binary64 number, as in Python. *)
#[local] Set Warnings "-inexact-float".

Local Open Scope Z_scope.

Abbreviation node := string.

(** ** Exceptions and results *)

(** The exceptions the modelled code can raise: [KeyError] from a failed
    subscript, [ValueError] from [raise ValueError], from [max] of an empty
    sequence and from the formatting of an integer of too many digits,
    [NetworkXError] from [DiGraph.successors], [OverflowError] from the
    conversion of an integer to a float. *)
Inductive exn := KeyError | ValueError | NetworkXError | OverflowError.

(** Outcome of a call: a value, a raised exception, or a loop that was still
    running when the fuel of the model ran out. *)
Inductive result (A : Type) :=
  | Ok (a : A)
  | Raise (e : exn)
  | OutOfFuel.
Arguments Ok {A} a.
Arguments Raise {A} e.
Arguments OutOfFuel {A}.

#[global] Instance exn_eq_dec : EqDecision exn.
Proof. solve_decision. Defined.

#[global] Instance result_ret : MRet result := fun A a => Ok a.
#[global] Instance result_bind : MBind result := fun A B f m =>
  match m with
  | Ok a => f a
  | Raise e => Raise e
  | OutOfFuel => OutOfFuel
  end.

(** [for x in l: s = body(s, x)], stopping at the first exception. *)
Fixpoint for_each {A S : Type} (body : S -> A -> result S) (l : list A) (s : S)
  : result S :=
  match l with
  | [] => Ok s
  | x :: l' => s' ← body s x; for_each body l' s'
  end.

(** ** Directed graphs with edge attributes *)

(** The attribute dictionary of an edge: its ["capacity"] and whether it
    carries [etype="rev"]. *)
Record EdgeData := mkEdgeData { capacity : Z; etype_rev : bool }.

(** A [networkx.DiGraph]: the nodes and the edges in insertion order.  An
    ordered pair has at most one edge; lookups take the first entry. *)
Record DiGraph := mkDiGraph {
  nodes : list node;
  edges : list (node * node * EdgeData)
}.

Definition edge_key (e : node * node * EdgeData) : node * node := e.1.

Fixpoint lookup_edge (es : list (node * node * EdgeData)) (u v : node)
  : option EdgeData :=
  match es with
  | [] => None
  | (k, d) :: es' => if decide (k = (u, v)) then Some d else lookup_edge es' u v
  end.

(** [G[u][v]] *)
Definition get_edge (G : DiGraph) (u v : node) : option EdgeData :=
  lookup_edge (edges G) u v.

(** [G.has_edge(u, v)] *)
Definition has_edge (G : DiGraph) (u v : node) : bool :=
  bool_decide (is_Some (get_edge G u v)).

(** [G[u][v]["capacity"]], a [KeyError] when the edge is absent. *)
Definition edge_capacity (G : DiGraph) (u v : node) : result Z :=
  match get_edge G u v with
  | Some d => Ok (capacity d)
  | None => Raise KeyError
  end.

Definition map_edge (g : EdgeData -> EdgeData) (u v : node)
    (es : list (node * node * EdgeData)) : list (node * node * EdgeData) :=
  (fun e => if decide (edge_key e = (u, v)) then (e.1, g e.2) else e) <$> es.

(** [G[u][v]["capacity"] += delta], a [KeyError] when the edge is absent. *)
Definition add_capacity (G : DiGraph) (u v : node) (delta : Z) : result DiGraph :=
  match get_edge G u v with
  | Some _ =>
      Ok (mkDiGraph (nodes G)
            (map_edge (fun d => mkEdgeData (capacity d + delta) (etype_rev d))
                      u v (edges G)))
  | None => Raise KeyError
  end.

Definition add_node (ns : list node) (u : node) : list node :=
  if decide (u ∈ ns) then ns else ns ++ [u].

(** [G.add_edge(u, v, capacity=c, etype="rev")]: both endpoints become nodes;
    an existing edge has its attributes overwritten, a new one is appended. *)
Definition add_edge (G : DiGraph) (u v : node) (c : Z) : DiGraph :=
  let ns := add_node (add_node (nodes G) u) v in
  match get_edge G u v with
  | Some _ => mkDiGraph ns (map_edge (fun _ => mkEdgeData c true) u v (edges G))
  | None => mkDiGraph ns (edges G ++ [(u, v, mkEdgeData c true)])
  end.

(** [G.copy()]: a new graph with the same nodes and edges, each edge with a
    copy of its attribute dictionary.  Every node keeps its successors in
    their order.  (networkx adds the edges to the copy node by node, which
    can change the order of the predecessors of a node; the functions
    modelled here do not iterate over the predecessors of a copy.) *)
Definition copy (G : DiGraph) : DiGraph := mkDiGraph (nodes G) (edges G).

(** The capacity of an edge, an absent edge counting as 0. *)
Definition cap0 (G : DiGraph) (u v : node) : Z :=
  match get_edge G u v with Some d => capacity d | None => 0 end.

(** ** Flows *)

(** A flow is a Python [dict] from edges to numbers, in insertion order. *)
Abbreviation flow_map := (list (node * node * Z)).

(** [flow.get((u, v), 0)] *)
Fixpoint flow_get (flow : flow_map) (u v : node) : Z :=
  match flow with
  | [] => 0
  | (k, f) :: flow' => if decide (k = (u, v)) then f else flow_get flow' u v
  end.

(** [(u, v) in flow] *)
Definition flow_mem (flow : flow_map) (u v : node) : bool :=
  bool_decide ((u, v) ∈ flow.*1).

(** The keys of a [dict] are pairwise distinct. *)
Definition dict_keys_ok (flow : flow_map) : Prop := NoDup flow.*1.

(** ** [residual_graph] *)

(** One iteration of the loop over [flow.items()]; [G] is only read, [H] is
    the graph being built. *)
Definition residual_step (G H : DiGraph) (e : node * node * Z) : result DiGraph :=
  let '(u, v, f) := e in
  c ← edge_capacity G u v;
  if decide (f > c) then Raise ValueError
  else
    H1 ← add_capacity H u v (- f);
    if has_edge H1 v u then add_capacity H1 v u f
    else Ok (add_edge H1 v u f).

Definition residual_graph (G : DiGraph) (flow : flow_map) : result DiGraph :=
  for_each (residual_step G) flow (copy G).

(** ** [check_valid_flow] *)

(** [G.successors(u)] and [G.predecessors(v)], in insertion order; a
    [NetworkXError] when the node is not in the graph. *)
Definition successors (G : DiGraph) (u : node) : result (list node) :=
  if decide (u ∈ nodes G)
  then Ok ((fun e => e.1.2) <$> filter (fun e => e.1.1 = u) (edges G))
  else Raise NetworkXError.

Definition predecessors (G : DiGraph) (v : node) : result (list node) :=
  if decide (v ∈ nodes G)
  then Ok ((fun e => e.1.1) <$> filter (fun e => e.1.2 = v) (edges G))
  else Raise NetworkXError.

(** [sum(l)]: the items are added from left to right, starting from 0. *)
Definition sum_list (l : list Z) : Z := foldl Z.add 0 l.

(** The conversion of an integer argument to a C [double]: the nearest
    binary64 number, ties to even; an [OverflowError] when the integer is too
    large for a finite one. *)
Definition to_double (z : Z) : result float :=
  let x := SF2Prim (binary_normalize prec emax z 0 false) in
  if is_infinity x then Raise OverflowError else Ok x.

(** The defaults of [math.isclose]: [rel_tol=1e-09] (the double nearest to
    it) and [abs_tol=0.0]. *)
Definition rel_tol : float := 0x1.12e0be826d695p-30%float.
Definition abs_tol : float := 0%float.

(** [math.isclose(a, b)] on two integers: both are converted to doubles;
    equal doubles are close, an infinite one is close to nothing else, and
    otherwise
    [diff <= fabs(rel_tol * b) or diff <= fabs(rel_tol * a) or diff <= abs_tol]
    with [diff = fabs(b - a)], all in binary64. *)
Definition isclose (a b : Z) : result bool :=
  x ← to_double a;
  y ← to_double b;
  if (x =? y)%float then Ok true
  else if is_infinity x || is_infinity y then Ok false
  else
    let diff := PrimFloat.abs (y - x) in
    Ok ((diff <=? PrimFloat.abs (rel_tol * y))%float
        || (diff <=? PrimFloat.abs (rel_tol * x))%float
        || (diff <=? abs_tol)%float).

(** The lines printed by [check_valid_flow]. *)
Inductive message :=
  | CapacityViolated (u v : node)
  | ConservationViolated (v : node).

#[global] Instance message_eq_dec : EqDecision message.
Proof. solve_decision. Defined.

(** The graph [H] built by [check_valid_flow], with the attributes it sets
    (["label"] as the pair flow/capacity, ["edgecolor"] and node ["color"]
    red), and the printed lines. *)
Record FlowReport := mkFlowReport {
  printed : list message;
  fg_edges : list (node * node);
  fg_labels : list (node * node * (Z * Z));
  fg_red_edges : list (node * node);
  fg_red_nodes : list node
}.

(** An integer that [str] formats: CPython refuses, with a [ValueError], to
    convert an integer of more than [sys.get_int_max_str_digits()] digits,
    4300 by default (since 3.11, and in the later releases of 3.7 to 3.10;
    before that every integer is formatted). *)
Definition int_max_str_digits : Z := 4300.

(** The least positive integer with more digits than that. *)
Definition int_str_bound : Z := Eval vm_compute in 10 ^ int_max_str_digits.

Definition printable (z : Z) : Prop := Z.abs z < int_str_bound.

#[global] Instance printable_dec z : Decision (printable z).
Proof. unfold printable. apply _. Defined.

(** The label [f"{f}/{capacity}"], kept as the two numbers it shows. *)
Definition format_label (f c : Z) : result (Z * Z) :=
  if decide (printable f ∧ printable c) then Ok (f, c) else Raise ValueError.
Arguments format_label : simpl never.

(** [sum(flow[(i, v)] if (i, v) in flow else 0 for i in G.predecessors(v))] *)
Definition incoming_flow (G : DiGraph) (flow : flow_map) (v : node) : result Z :=
  ps ← predecessors G v;
  Ok (sum_list ((fun i => if flow_mem flow i v then flow_get flow i v else 0) <$> ps)).

(** [sum(flow[(v, o)] if (v, o) in flow else 0 for o in G.successors(v))] *)
Definition outgoing_flow (G : DiGraph) (flow : flow_map) (v : node) : result Z :=
  ss ← successors G v;
  Ok (sum_list ((fun o => if flow_mem flow v o then flow_get flow v o else 0) <$> ss)).

Definition check_step (G : DiGraph) (flow : flow_map) (source_node target_node : node)
    (H : FlowReport) (e : node * node * Z) : result FlowReport :=
  let '(u, v, f) := e in
  c ← edge_capacity G u v;
  label ← format_label f c;
  let H1 := mkFlowReport (printed H) (fg_edges H) (fg_labels H ++ [(u, v, label)])
                         (fg_red_edges H) (fg_red_nodes H) in
  let H2 :=
    if decide (f > c)
    then mkFlowReport (printed H1 ++ [CapacityViolated u v]) (fg_edges H1)
                      (fg_labels H1) (fg_red_edges H1 ++ [(u, v)]) (fg_red_nodes H1)
    else H1 in
  if decide (v ≠ source_node ∧ v ≠ target_node) then
    i ← incoming_flow G flow v;
    o ← outgoing_flow G flow v;
    near ← isclose i o;
    if near : bool then Ok H2
    else Ok (mkFlowReport (printed H2 ++ [ConservationViolated v]) (fg_edges H2)
                          (fg_labels H2) (fg_red_edges H2) (fg_red_nodes H2 ++ [v]))
  else Ok H2.

Definition check_valid_flow (G : DiGraph) (flow : flow_map)
    (source_node target_node : node) : result FlowReport :=
  for_each (check_step G flow source_node target_node) flow
           (mkFlowReport [] flow.*1 [] [] []).

(** ** [level_bfs] *)

(** The local variables of [level_bfs]: the dictionaries [parents] and
    [level] and the [deque]. *)
Record bfs_state := mkBfs {
  bfs_parents : gmap node node;
  bfs_level : gmap node nat;
  bfs_queue : list node
}.

(** The body of [for v in R.successors(u)]. *)
Definition visit (R : DiGraph) (u : node) (st : bfs_state) (v : node)
  : result bfs_state :=
  if decide (bfs_parents st !! v = None) then
    c ← edge_capacity R u v;
    if decide (c > 0) then
      match bfs_level st !! u with
      | Some lu =>
          Ok (mkBfs (<[v := u]> (bfs_parents st))
                    (<[v := S lu]> (bfs_level st))
                    (bfs_queue st ++ [v]))
      | None => Raise KeyError
      end
    else Ok st
  else Ok st.

(** The [while queue] loop; one unit of fuel per evaluation of its test. *)
Fixpoint bfs_loop (fuel : nat) (R : DiGraph) (target_node : node) (st : bfs_state)
  : result bfs_state :=
  match fuel with
  | O => OutOfFuel
  | S fuel' =>
      match bfs_queue st with
      | [] => Ok st
      | u :: q =>
          if decide (is_Some (bfs_parents st !! target_node)) then Ok st
          else
            vs ← successors R u;
            st' ← for_each (visit R u) vs
                    (mkBfs (bfs_parents st) (bfs_level st) q);
            bfs_loop fuel' R target_node st'
      end
  end.

(** The state when the loop exits.  The fuel covers every run: a node enters
    the queue at most once after the source (see [level_bfs_terminates]). *)
Definition level_bfs_run (R : DiGraph) (flow : flow_map)
    (source_node target_node : node) : result bfs_state :=
  bfs_loop (2 + length (edges R)) R target_node
           (mkBfs ∅ {[source_node := 0%nat]} [source_node]).

Definition level_bfs (R : DiGraph) (flow : flow_map)
    (source_node target_node : node)
  : result (gmap node node * gmap node nat) :=
  st ← level_bfs_run R flow source_node target_node;
  Ok (bfs_parents st, bfs_level st).

(** ** [aug_path_dfs] *)

(** [max(flow.values())], a [ValueError] on an empty dictionary. *)
Definition max_values (flow : flow_map) : result Z :=
  match flow with
  | [] => Raise ValueError
  | (_, f) :: flow' => Ok (foldl Z.max f flow'.*2)
  end.

(** The [while u != source_node] loop; one unit of fuel per evaluation of its
    test.  [R.pred[u][v]] is the attribute dictionary of the edge [v -> u]. *)
Fixpoint aug_loop (fuel : nat) (R : DiGraph) (parents : gmap node node)
    (flow : flow_map) (source_node u : node) (path : list node) (f : Z)
  : result (list node * Z) :=
  match fuel with
  | O => OutOfFuel
  | S fuel' =>
      if decide (u = source_node) then Ok (path ++ [source_node], f)
      else
        match parents !! u with
        | None => Raise KeyError
        | Some v =>
            c ← edge_capacity R v u;
            aug_loop fuel' R parents flow source_node v (path ++ [u])
                     (Z.min f (c - flow_get flow u v))
        end
  end.

(** [aug_path_dfs] reads the global [R]; here it is a parameter. *)
Definition aug_path_dfs (fuel : nat) (R : DiGraph) (parents : gmap node node)
    (flow : flow_map) (source_node target_node : node)
  : result (list node * Z) :=
  m ← max_values flow;
  aug_loop fuel R parents flow source_node target_node [] (3 * m).

(** ** [residual_graph] on a store of graph objects

    The same function with the graphs as objects of a store, to tell an
    update in place from the construction of a new graph.  In NetworkX
    [G.copy()] builds a new graph and gives each edge a copy of its attribute
    dictionary ([datadict.copy()]); capacities are numbers, so no mutable
    cell is shared between a graph and its copy. *)
Module Heap.

Definition ref := nat.
Definition store := list DiGraph.

(** A computation on the store that may raise. *)
Definition M (A : Type) : Type := store -> result A * store.

Definition retM {A : Type} (a : A) : M A := fun s => (Ok a, s).

Definition bindM {A B : Type} (m : M A) (k : A -> M B) : M B := fun s =>
  match m s with
  | (Ok a, s') => k a s'
  | (Raise e, s') => (Raise e, s')
  | (OutOfFuel, s') => (OutOfFuel, s')
  end.

Notation "x <~ m ;; k" := (bindM m (fun x => k))
  (at level 100, m at next level, right associativity).

Definition lift {A : Type} (r : result A) : M A := fun s => (r, s).

(** Dereference; references are never dangling in Python, the model stops
    with a [KeyError] on one. *)
Definition read (r : ref) : M DiGraph := fun s =>
  match s !! r with
  | Some G => (Ok G, s)
  | None => (Raise KeyError, s)
  end.

Definition write (r : ref) (G : DiGraph) : M unit := fun s =>
  (Ok tt, <[r := G]> s).

Definition alloc (G : DiGraph) : M ref := fun s => (Ok (length s), s ++ [G]).

(** An update in place of the object behind [r]. *)
Definition modify (r : ref) (f : DiGraph -> result DiGraph) : M unit :=
  G <~ read r ;; G' <~ lift (f G) ;; write r G'.

Definition residual_step (g h : ref) (e : node * node * Z) : M unit :=
  let '(u, v, f) := e in
  G <~ read g ;;
  c <~ lift (edge_capacity G u v) ;;
  if decide (f > c) then lift (Raise ValueError)
  else
    _ <~ modify h (fun H => add_capacity H u v (- f)) ;;
    H1 <~ read h ;;
    if has_edge H1 v u then modify h (fun H => add_capacity H v u f)
    else modify h (fun H => Ok (add_edge H v u f)).

Fixpoint residual_loop (g h : ref) (flow : flow_map) : M unit :=
  match flow with
  | [] => retM tt
  | e :: flow' => _ <~ residual_step g h e ;; residual_loop g h flow'
  end.

Definition residual_graph (g : ref) (flow : flow_map) : M ref :=
  G <~ read g ;;
  h <~ alloc (copy G) ;;
  _ <~ residual_loop g h flow ;;
  retM h.

End Heap.

(** ** Well-formed graphs, paths and parent chains *)

(** The representation invariant of a [DiGraph]: nodes and edges are stored
    once and the endpoints of every edge are nodes. *)
Definition wf_graph (G : DiGraph) : Prop :=
  NoDup (nodes G) ∧ NoDup (edge_key <$> edges G) ∧
  Forall (fun e => e.1.1 ∈ nodes G ∧ e.1.2 ∈ nodes G) (edges G).

#[global] Instance wf_graph_dec G : Decision (wf_graph G).
Proof. unfold wf_graph. apply _. Defined.

(** An edge with positive residual capacity. *)
Definition posedge (R : DiGraph) (u v : node) : Prop :=
  ∃ d, get_edge R u v = Some d ∧ capacity d > 0.

(** [hop R s n v]: a walk of [n] positive-capacity edges leads from [s] to
    [v]. *)
Inductive hop (R : DiGraph) (s : node) : nat -> node -> Prop :=
  | hop_O : hop R s 0 s
  | hop_S n u v : hop R s n u -> posedge R u v -> hop R s (S n) v.

(** [reaches parents s u n]: following [parents] from [u] arrives at [s]
    after [n] steps. *)
Inductive reaches (parents : gmap node node) (s : node) : node -> nat -> Prop :=
  | reaches_O : reaches parents s s 0
  | reaches_S u v n :
      u ≠ s -> parents !! u = Some v -> reaches parents s v n ->
      reaches parents s u (S n).

(** [chain R parents s u n]: as [reaches], and every link [parents[u] = v]
    that is followed is an edge [v -> u] of [R]. *)
Inductive chain (R : DiGraph) (parents : gmap node node) (s : node)
  : node -> nat -> Prop :=
  | chain_O : chain R parents s s 0
  | chain_S u v n :
      u ≠ s -> parents !! u = Some v -> is_Some (get_edge R v u) ->
      chain R parents s v n -> chain R parents s u (S n).

(** The sum of the values stored in a list of items under the key [(u, v)]. *)
Fixpoint flow_sum (flow : flow_map) (u v : node) : Z :=
  match flow with
  | [] => 0
  | (k, f) :: flow' => (if decide (k = (u, v)) then f else 0) + flow_sum flow' u v
  end.

(** A flow item passes the checks of [residual_graph]: its edge is in [G]
    and its value does not exceed the capacity. *)
Definition item_ok (G : DiGraph) (e : node * node * Z) : Prop :=
  match get_edge G e.1.1 e.1.2 with
  | Some d => e.2 ≤ capacity d
  | None => False
  end.

#[global] Instance item_ok_dec G e : Decision (item_ok G e).
Proof. unfold item_ok. destruct (get_edge G e.1.1 e.1.2); apply _. Defined.

(** The test that makes [check_valid_flow] report the node [v]: it is neither
    terminal and its two sums are not close. *)
Definition conservation_fails (G : DiGraph) (flow : flow_map)
    (source_node target_node v : node) : Prop :=
  v ≠ source_node ∧ v ≠ target_node ∧
  ∃ i o, incoming_flow G flow v = Ok i ∧ outgoing_flow G flow v = Ok o ∧
         isclose i o = Ok false.

(** The result of a value-level computation as seen by a caller that gets a
    reference to the new object. *)
Definition returning {A B : Type} (b : B) (r : result A) : result B :=
  match r with
  | Ok _ => Ok b
  | Raise e => Raise e
  | OutOfFuel => OutOfFuel
  end.

(** ** Invariants of the search *)

(** A node has been discovered when it has an entry in [level]. *)
Definition disc (st : bfs_state) (x : node) : Prop := is_Some (bfs_level st !! x).

(** A node is expanded when all its positive-capacity successors have been
    discovered. *)
Definition expanded (R : DiGraph) (st : bfs_state) (u : node) : Prop :=
  ∀ v, posedge R u v -> disc st v.

(** The loop invariant of [level_bfs], for the source [s]: the queue is a
    block [A] of nodes at hop distance [L] followed by a block [B] of nodes
    at hop distance [S L]; everything within [L] hops is discovered, and a
    discovered node is waiting in the queue or expanded. *)
Record bfs_inv (R : DiGraph) (s : node) (L : nat) (A B : list node)
    (st : bfs_state) : Prop := mkBfsInv {
  inv_queue : bfs_queue st = A ++ B;
  inv_source : disc st s;
  inv_parents : ∀ x, is_Some (bfs_parents st !! x) ->
                disc st x ∧ ∃ m, (1 ≤ m ≤ S L)%nat ∧ hop R s m x;
  inv_near : ∀ n x, hop R s n x -> (n ≤ L)%nat -> disc st x;
  inv_front : ∀ u v, hop R s L u -> posedge R u v -> disc st v ∨ u ∈ A;
  inv_done : ∀ u, disc st u -> u ∈ bfs_queue st ∨ expanded R st u;
  inv_A : ∀ u, u ∈ A -> hop R s L u;
  inv_B : ∀ u, u ∈ B -> hop R s (S L) u;
  inv_safe : ∀ u, u ∈ bfs_queue st -> u ∈ nodes R ∧ disc st u
}.

(** Every entry of [parents] was made over an edge of positive capacity. *)
Definition parents_pos (R : DiGraph) (st : bfs_state) : Prop :=
  ∀ v u, bfs_parents st !! v = Some u -> posedge R u v.

(** The termination measure of the [while] loop: the length of the queue plus
    the number of edges whose head has no parent yet. *)
Definition bfs_measure (R : DiGraph) (st : bfs_state) : nat :=
  (length (bfs_queue st) +
   length (filter (fun e => bfs_parents st !! e.1.2 = None) (edges R)))%nat.

(** ** Example inputs *)

(** Two antiparallel edges, both carrying flow. *)
Definition G_anti : DiGraph :=
  mkDiGraph ["a"; "b"]
    [("a", "b", mkEdgeData 5 false); ("b", "a", mkEdgeData 5 false)].

Definition flow_anti : flow_map := [("a", "b", 2); ("b", "a", 1)].

(** The path [s -> a -> t] with capacities 20 and 10. *)
Definition G_path : DiGraph :=
  mkDiGraph ["s"; "a"; "t"]
    [("s", "a", mkEdgeData 20 false); ("a", "t", mkEdgeData 10 false)].

(** A flow above the capacity of [s -> a] and not conserved at [a]. *)
Definition flow_over : flow_map := [("s", "a", 30); ("a", "t", 5)].


(** A flow that leaves [a] without entering it. *)
Definition flow_tail : flow_map := [("a", "t", 5)].

(** A flow item on an edge that [G_path] does not have. *)
Definition flow_unknown : flow_map := [("s", "a", 1); ("a", "zz", 1)].



(** A cycle through the source: [s -> a -> s] and [a -> t]. *)
Definition R_cycle : DiGraph :=
  mkDiGraph ["s"; "a"; "t"]
    [("s", "a", mkEdgeData 1 false); ("a", "s", mkEdgeData 1 false);
     ("a", "t", mkEdgeData 1 false)].

(** Two branches: [s -> a -> t] and [s -> b -> x]. *)
Definition R_fork : DiGraph :=
  mkDiGraph ["s"; "a"; "b"; "t"; "x"]
    [("s", "a", mkEdgeData 1 false); ("s", "b", mkEdgeData 1 false);
     ("a", "t", mkEdgeData 1 false); ("b", "x", mkEdgeData 1 false)].

(** One edge [s -> t] of capacity 10 carrying the flow 1, its residual graph
    and the parents found there. *)
Definition G_one : DiGraph :=
  mkDiGraph ["s"; "t"] [("s", "t", mkEdgeData 10 false)].

Definition flow_one : flow_map := [("s", "t", 1)].

Definition R_one : DiGraph :=
  mkDiGraph ["s"; "t"]
    [("s", "t", mkEdgeData 9 false); ("t", "s", mkEdgeData 1 true)].

Definition parents_one : gmap node node := {["t" := "s"]}.

(** The edges [s -> t] and [t -> s] of capacity 10, carrying 4 and 1. *)
Definition G_both : DiGraph :=
  mkDiGraph ["s"; "t"]
    [("s", "t", mkEdgeData 10 false); ("t", "s", mkEdgeData 10 false)].

Definition flow_both : flow_map := [("s", "t", 4); ("t", "s", 1)].

(** A residual graph in which a saturated edge cuts the target off: [s]
    reaches [a] only. *)
Definition R_cut : DiGraph :=
  mkDiGraph ["s"; "a"; "b"; "t"]
    [("s", "a", mkEdgeData 2 false); ("a", "b", mkEdgeData 0 false);
     ("b", "t", mkEdgeData 2 false); ("b", "a", mkEdgeData 2 true)].


(** ** More inputs, for the properties of the rest of the notebook *)

(** The flow that sends every item back along the reverse edge. *)
Definition flow_rev (flow : flow_map) : flow_map :=
  (fun e => (e.1.2, e.1.1, e.2)) <$> flow.

(** No edge of the graph carries [etype="rev"], as in a graph that was not
    produced by [residual_graph]. *)
Definition no_rev_edges (G : DiGraph) : Prop :=
  Forall (fun e => etype_rev e.2 = false) (edges G).

#[global] Instance no_rev_edges_dec G : Decision (no_rev_edges G).
Proof. unfold no_rev_edges. apply _. Defined.

(** The shape of a graph [H] built by [residual_graph] from [G]: the nodes
    of [G]; in the list of edges, the edges of [G] in their order followed by
    new edges, so that every node keeps its successors in their order with
    the new ones after them; and every edge is an edge of [G] with its
    [etype] or a new edge with [etype="rev"] that reverses a flow item. *)
Definition residual_shape (G : DiGraph) (flow : flow_map) (H : DiGraph) : Prop :=
  nodes H = nodes G ∧
  (∀ a b, is_Some (get_edge G a b) -> is_Some (get_edge H a b)) ∧
  (∃ new, edge_key <$> edges H = (edge_key <$> edges G) ++ new) ∧
  (∀ a b d, get_edge H a b = Some d ->
     (∃ d0, get_edge G a b = Some d0 ∧ etype_rev d = etype_rev d0) ∨
     (get_edge G a b = None ∧ etype_rev d = true ∧ ∃ f, (b, a, f) ∈ flow)).

(** What the entries of [parents] and [level] mean at any point of the
    search from [s]: a level is the length of a walk over positive edges, the
    nodes with a level are the source and the nodes with a parent, and the
    parents lead back to the source. *)
Record bfs_links (R : DiGraph) (s : node) (st : bfs_state) : Prop := mkBfsLinks {
  lk_walk : ∀ v k, bfs_level st !! v = Some k -> hop R s k v;
  lk_dom : ∀ v, disc st v ↔ v = s ∨ is_Some (bfs_parents st !! v);
  lk_pos : ∀ v, is_Some (bfs_parents st !! v) ->
           ∃ k, bfs_level st !! v = Some (S k);
  lk_chain : ∀ v, disc st v -> ∃ n, reaches (bfs_parents st) s v n;
  lk_source : bfs_parents st !! s = None -> bfs_level st !! s = Some 0%nat
}.

(** A discovered node is waiting in the queue, or all its positive-capacity
    successors have a parent. *)
Definition bfs_closed (R : DiGraph) (st : bfs_state) : Prop :=
  ∀ u, disc st u ->
       u ∈ bfs_queue st ∨ ∀ v, posedge R u v -> is_Some (bfs_parents st !! v).

(** The levels during the search, when the queue is the block [A] at level
    [L] followed by the block [B] at level [S L]: no walk to a node is
    shorter than its level. *)
Record bfs_dist (R : DiGraph) (s : node) (L : nat) (A B : list node)
    (st : bfs_state) : Prop := mkBfsDist {
  ds_A : ∀ u, u ∈ A -> bfs_level st !! u = Some L;
  ds_B : ∀ u, u ∈ B -> bfs_level st !! u = Some (S L);
  ds_min : ∀ v k n, bfs_level st !! v = Some k -> hop R s n v -> (k ≤ n)%nat
}.

(** The levels while the successors of a node of level [L] are visited,
    starting in the state [st0]: old levels are kept, and the nodes appended
    to the queue are new and get the level [S L]. *)
Definition visit_levels (L : nat) (st0 st : bfs_state) : Prop :=
  (∀ x k, bfs_level st0 !! x = Some k -> bfs_level st !! x = Some k) ∧
  (∃ nw, bfs_queue st = bfs_queue st0 ++ nw ∧
         ∀ x, x ∈ nw -> bfs_level st0 !! x = None ∧ bfs_level st !! x = Some (S L)) ∧
  (∀ x k, bfs_level st !! x = Some k ->
          bfs_level st0 !! x = Some k ∨ (bfs_level st0 !! x = None ∧ k = S L)).

(** ** The augmentation step of the notebook *)

(** [nx.utils.pairwise(path)]: the pairs of consecutive elements. *)
Definition pairwise {A : Type} (l : list A) : list (A * A) := zip l (tail l).

(** [d[k] = x] on a dictionary in insertion order: the value of an existing
    key is replaced in place, a new key is appended. *)
Fixpoint dict_set (d : flow_map) (k : node * node) (x : Z) : flow_map :=
  match d with
  | [] => [(k, x)]
  | (k', y) :: d' =>
      if decide (k' = k) then (k', x) :: d' else (k', y) :: dict_set d' k x
  end.



(** ** The computations of the drawing functions *)

(** [G.edges(data=True)]: the edges grouped by their tail, the tails in node
    order, the edges of a tail in insertion order. *)
Definition edges_iter (G : DiGraph) : list (node * node * EdgeData) :=
  n ← nodes G; filter (fun e => e.1.1 = n) (edges G).

(** The three lists that [draw_residual_graph] fills. *)
Record edge_classes := mkClasses {
  orig_edges : list (node * node);
  zero_edges : list (node * node);
  rev_edges : list (node * node)
}.

(** The body of [for u, v, data in R.edges(data=True)] in
    [draw_residual_graph]. *)
Definition classify_step (c : edge_classes) (e : node * node * EdgeData)
  : edge_classes :=
  if etype_rev e.2
  then mkClasses (orig_edges c) (zero_edges c) (rev_edges c ++ [e.1])
  else if decide (capacity e.2 = 0)
  then mkClasses (orig_edges c) (zero_edges c ++ [e.1]) (rev_edges c)
  else mkClasses (orig_edges c ++ [e.1]) (zero_edges c) (rev_edges c).

Definition classify_edges (R : DiGraph) : edge_classes :=
  foldl classify_step (mkClasses [] [] []) (edges_iter R).

(** [level_colors] of the notebook. *)
Definition level_colors : gmap nat string :=
  list_to_map [(1%nat, "aqua"); (2%nat, "lightgreen"); (3%nat, "yellow");
               (4%nat, "orange"); (5%nat, "lightpink"); (6%nat, "violet")].

(** [[level_colors[l] for l in level.values()]] in [draw_level_network], on
    the list of the values of [level]. *)
Fixpoint level_nc (level_values : list nat) : result (list string) :=
  match level_values with
  | [] => Ok []
  | l :: ls =>
      match level_colors !! l with
      | Some c => cs ← level_nc ls; Ok (c :: cs)
      | None => Raise KeyError
      end
  end.

(** [[(v, u) for u, v in parents.items() if (v, u) in G.edges]] and its
    complement in [draw_level_network], on the list of the items of
    [parents]; [G] is the global graph of the notebook. *)
Definition level_fwd_edges (G : DiGraph) (parents_items : list (node * node))
  : list (node * node) :=
  (fun uv => (uv.2, uv.1)) <$> filter (fun uv => has_edge G uv.2 uv.1) parents_items.

Definition level_rev_edges (G : DiGraph) (parents_items : list (node * node))
  : list (node * node) :=
  (fun uv => (uv.2, uv.1)) <$> filter (fun uv => ¬ has_edge G uv.2 uv.1) parents_items.

(** [{(u, v): R[u][v]["capacity"] for u, v in edgelist}], the dictionary
    being filled in the order of [edgelist]. *)
Fixpoint edge_labels_from (R : DiGraph) (labels : flow_map)
    (edgelist : list (node * node)) : result flow_map :=
  match edgelist with
  | [] => Ok labels
  | (u, v) :: es =>
      c ← edge_capacity R u v;
      edge_labels_from R (dict_set labels (u, v) c) es
  end.

Definition edge_labels (R : DiGraph) (edgelist : list (node * node))
  : result flow_map :=
  edge_labels_from R [] edgelist.

(** The levels of [R_fork] from [s] up to the discovery of [t]. *)
Definition level_fork : gmap node nat :=
  list_to_map [("s", 0%nat); ("a", 1%nat); ("b", 1%nat); ("t", 2%nat)].

(** Every node with a parent is one level above its parent. *)
Definition bfs_layered (st : bfs_state) : Prop :=
  ∀ v u, bfs_parents st !! v = Some u ->
         ∃ k, bfs_level st !! u = Some k ∧ bfs_level st !! v = Some (S k).

(** ** The totals that [check_valid_flow] compares *)



(** The item is examined without an exception: its edge is in [G], its
    label is formatted and, when its head is not a terminal, [math.isclose]
    answers for the two sums. *)
Definition item_checked (G : DiGraph) (flow : flow_map) (source_node target_node : node)
    (e : node * node * Z) : Prop :=
  is_Some (get_edge G e.1.1 e.1.2) ∧
  (printable e.2 ∧ printable (cap0 G e.1.1 e.1.2)) ∧
  (e.1.2 ≠ source_node -> e.1.2 ≠ target_node ->
   ∃ i o near, incoming_flow G flow e.1.2 = Ok i ∧
               outgoing_flow G flow e.1.2 = Ok o ∧ isclose i o = Ok near).

(** The three ways in which an iteration of [check_valid_flow] raises. *)
Definition check_raises (G : DiGraph) (flow items : flow_map) (s t : node)
    (e : exn) : Prop :=
  (e = KeyError ∧ ∃ u v f, (u, v, f) ∈ items ∧ get_edge G u v = None) ∨
  (e = ValueError ∧
   ∃ u v f, (u, v, f) ∈ items ∧ ¬ (printable f ∧ printable (cap0 G u v))) ∨
  (e = OverflowError ∧
   ∃ u v f i o, (u, v, f) ∈ items ∧ v ≠ s ∧ v ≠ t ∧
     incoming_flow G flow v = Ok i ∧ outgoing_flow G flow v = Ok o ∧
     isclose i o = Raise OverflowError).

(** A path graph whose capacities are too large for a float, with a flow
    that fills it. *)
Definition G_huge : DiGraph :=
  mkDiGraph ["s"; "a"; "t"]
            [("s", "a", mkEdgeData (10 ^ 400) false);
             ("a", "t", mkEdgeData (10 ^ 400) false)].

Definition flow_huge : flow_map := [("s", "a", 10 ^ 400); ("a", "t", 10 ^ 400)].

(** A flow on [G_path] whose sums at [a] differ by less than the relative
    tolerance allows. *)
Definition G_wide : DiGraph :=
  mkDiGraph ["s"; "a"; "t"]
            [("s", "a", mkEdgeData 99999999999999999 false);
             ("a", "t", mkEdgeData 99999999999999999 false)].

Definition flow_wide : flow_map :=
  [("s", "a", 99999999999999999); ("a", "t", 99999999899999999)].

(** ** [residual_graph] on floating-point numbers

    The same function for capacities and flow values that are Python floats:
    the graph operations are those above, the comparison and the two updates
    are those of binary64. *)
Module Binary64.

Record EdgeData := mkEdgeData { capacity : float; etype_rev : bool }.

Record DiGraph := mkDiGraph {
  nodes : list node;
  edges : list (node * node * EdgeData)
}.

Abbreviation flow_map := (list (node * node * float)).

Fixpoint lookup_edge (es : list (node * node * EdgeData)) (u v : node)
  : option EdgeData :=
  match es with
  | [] => None
  | (k, d) :: es' => if decide (k = (u, v)) then Some d else lookup_edge es' u v
  end.

Definition get_edge (G : DiGraph) (u v : node) : option EdgeData :=
  lookup_edge (edges G) u v.

Definition has_edge (G : DiGraph) (u v : node) : bool :=
  match get_edge G u v with Some _ => true | None => false end.

Definition edge_capacity (G : DiGraph) (u v : node) : result float :=
  match get_edge G u v with
  | Some d => Ok (capacity d)
  | None => Raise KeyError
  end.

(** [G[u][v]["capacity"] = g(G[u][v]["capacity"])] *)
Definition update_capacity (G : DiGraph) (u v : node) (g : float -> float)
  : result DiGraph :=
  match get_edge G u v with
  | Some _ =>
      Ok (mkDiGraph (nodes G)
            ((fun e => if decide (e.1 = (u, v))
                       then (e.1, mkEdgeData (g (capacity e.2)) (etype_rev e.2))
                       else e) <$> edges G))
  | None => Raise KeyError
  end.

Definition add_edge (G : DiGraph) (u v : node) (c : float) : DiGraph :=
  let ns := add_node (add_node (nodes G) u) v in
  match get_edge G u v with
  | Some _ =>
      mkDiGraph ns ((fun e => if decide (e.1 = (u, v))
                              then (e.1, mkEdgeData c true) else e) <$> edges G)
  | None => mkDiGraph ns (edges G ++ [(u, v, mkEdgeData c true)])
  end.

Definition copy (G : DiGraph) : DiGraph := mkDiGraph (nodes G) (edges G).

Definition cap0 (G : DiGraph) (u v : node) : float :=
  match get_edge G u v with Some d => capacity d | None => 0%float end.

Definition residual_step (G H : DiGraph) (e : node * node * float) : result DiGraph :=
  let '(u, v, f) := e in
  c ← edge_capacity G u v;
  if (c <? f)%float then Raise ValueError
  else
    H1 ← update_capacity H u v (fun x => x - f)%float;
    if has_edge H1 v u then update_capacity H1 v u (fun x => x + f)%float
    else Ok (add_edge H1 v u f).

Definition residual_graph (G : DiGraph) (flow : flow_map) : result DiGraph :=
  for_each (residual_step G) flow (copy G).

(** The attributes of an edge after [capacity -= f], and of a reverse edge
    after [capacity += f] or after its creation with [capacity=f]. *)
Definition decreased (f : float) (d : EdgeData) : EdgeData :=
  mkEdgeData (capacity d - f) (etype_rev d).

Definition increased (f : float) (o : option EdgeData) : EdgeData :=
  match o with
  | Some d => mkEdgeData (capacity d + f) (etype_rev d)
  | None => mkEdgeData f true
  end.

(** One edge of capacity 0.9 that carries a flow of 0.2. *)
Definition G_tenths : DiGraph :=
  mkDiGraph ["u"; "v"] [("u", "v", mkEdgeData 0.9%float false)].

Definition flow_tenths : flow_map := [("u", "v", 0.2%float)].

(** An antiparallel pair of edges that both carry flow. *)
Definition G_pair : DiGraph :=
  mkDiGraph ["a"; "b"]
            [("a", "b", mkEdgeData 0.5%float false);
             ("b", "a", mkEdgeData 0.3%float false)].

Definition flow_pair : flow_map := [("a", "b", 0.1%float); ("b", "a", 0.2%float)].

End Binary64.

(** * Properties *)

(** Closed decidable goals are settled by evaluation. *)
Ltac by_computation :=
  lazymatch goal with
  | |- ?P => apply (bool_decide_unpack P); vm_compute; exact I
  end.

(** A concrete edge of positive capacity. *)
Ltac solve_posedge := eexists; split; [vm_compute; reflexivity | simpl; lia].

(** ** The result monad and loops *)

Lemma bind_Ok {A B : Type} (m : result A) (k : A -> result B) (b : B) :
  (m ≫= k) = Ok b ↔ ∃ a, m = Ok a ∧ k a = Ok b.
Proof.
  destruct m as [a| |]; simpl; split.
  - intros Hk. by exists a.
  - intros (a' & [= <-] & Hk). done.
  - done.
  - by intros (? & ? & ?).
  - done.
  - by intros (? & ? & ?).
Qed.

Lemma for_each_app {A S : Type} (body : S -> A -> result S) l1 l2 s :
  for_each body (l1 ++ l2) s = (for_each body l1 s ≫= for_each body l2).
Proof.
  revert s. induction l1 as [|x l1 IH]; intros s; simpl; [done|].
  destruct (body s x); simpl; auto.
Qed.

(** An invariant of the loop body holds when the loop is left normally. *)
Lemma for_each_invariant {A S : Type} (body : S -> A -> result S)
    (P : S -> Prop) l s s' :
  (∀ s1 x s2, x ∈ l -> P s1 -> body s1 x = Ok s2 -> P s2) ->
  P s -> for_each body l s = Ok s' -> P s'.
Proof.
  revert s. induction l as [|x l IH]; intros s Hstep HP; simpl.
  - by intros [= <-].
  - intros (s1 & H1 & H2)%bind_Ok. apply (IH s1); [|eauto using list_elem_of_here|done].
    intros; eapply Hstep; eauto using list_elem_of_further.
Qed.

(** ** Edge lookups *)

Lemma lookup_edge_map g u v es a b :
  lookup_edge (map_edge g u v es) a b =
  if decide ((a, b) = (u, v)) then g <$> lookup_edge es a b
  else lookup_edge es a b.
Proof.
  induction es as [|[k d] es IH]; simpl.
  - by case_decide.
  - unfold edge_key; simpl. repeat case_decide; simplify_eq/=; try done.
Qed.

Lemma lookup_edge_snoc es u v d a b :
  lookup_edge (es ++ [(u, v, d)]) a b =
  match lookup_edge es a b with
  | Some x => Some x
  | None => if decide ((a, b) = (u, v)) then Some d else None
  end.
Proof.
  induction es as [|[k d'] es IH]; simpl.
  - repeat case_decide; simplify_eq/=; congruence.
  - destruct (decide (k = (a, b))); [done|apply IH].
Qed.

Lemma lookup_edge_Some es u v d :
  lookup_edge es u v = Some d -> (u, v, d) ∈ es.
Proof.
  induction es as [|[k d'] es IH]; simpl; [done|].
  case_decide; simplify_eq/=.
  - intros [= ->]. apply list_elem_of_here.
  - intros. apply list_elem_of_further. auto.
Qed.

Lemma lookup_edge_is_Some es u v :
  is_Some (lookup_edge es u v) ↔ (u, v) ∈ edge_key <$> es.
Proof.
  induction es as [|[k d'] es IH]; simpl.
  - split; [by intros [? ?]|by intros ?%elem_of_nil].
  - rewrite elem_of_cons. unfold edge_key at 1; simpl. case_decide; simplify_eq/=.
    + split; eauto.
    + rewrite IH. split; [tauto|]. intros [?|?]; [congruence|done].
Qed.

Lemma cap0_add_capacity G u v delta G' a b :
  add_capacity G u v delta = Ok G' ->
  cap0 G' a b = cap0 G a b + (if decide ((a, b) = (u, v)) then delta else 0).
Proof.
  unfold add_capacity, cap0, get_edge.
  destruct (lookup_edge (edges G) u v) as [d|] eqn:Hd; [|done].
  intros [= <-]; simpl. rewrite lookup_edge_map.
  case_decide; simplify_eq/=.
  - rewrite Hd. done.
  - destruct (lookup_edge _ a b); lia.
Qed.

Lemma get_edge_add_capacity G u v delta G' a b :
  add_capacity G u v delta = Ok G' ->
  is_Some (get_edge G' a b) ↔ is_Some (get_edge G a b).
Proof.
  unfold add_capacity, get_edge.
  destruct (lookup_edge (edges G) u v) as [d|] eqn:Hd; [|done].
  intros [= <-]; simpl. rewrite lookup_edge_map.
  case_decide; [|done]. rewrite fmap_is_Some. done.
Qed.

Lemma add_capacity_Ok G u v delta :
  is_Some (get_edge G u v) -> ∃ G', add_capacity G u v delta = Ok G'.
Proof. unfold add_capacity. intros [d ->]. eauto. Qed.

Lemma cap0_add_edge_new G u v c a b :
  get_edge G u v = None ->
  cap0 (add_edge G u v c) a b =
  cap0 G a b + (if decide ((a, b) = (u, v)) then c else 0).
Proof.
  unfold add_edge, cap0, get_edge. intros Hn. rewrite Hn. simpl.
  rewrite lookup_edge_snoc. case_decide; simplify_eq/=.
  - rewrite Hn. simpl. lia.
  - destruct (lookup_edge _ a b); lia.
Qed.

Lemma get_edge_add_edge G u v c a b :
  is_Some (get_edge (add_edge G u v c) a b) ↔
  is_Some (get_edge G a b) ∨ (a, b) = (u, v).
Proof.
  unfold add_edge, get_edge.
  destruct (lookup_edge (edges G) u v) as [d|] eqn:Hd; simpl.
  - rewrite lookup_edge_map. case_decide; simplify_eq/=.
    + rewrite Hd. simpl. split; eauto.
    + split; [eauto|]. intros [?|?]; [done|]. simplify_eq.
  - rewrite lookup_edge_snoc. destruct (lookup_edge (edges G) a b) eqn:Hab.
    + split; eauto.
    + case_decide; split; eauto. intros [[? ?]|?]; done.
Qed.

(** ** [residual_graph]: capacities *)

(** The effect of one loop iteration on every capacity. *)
Lemma residual_step_cap0 G H u v f H' a b :
  residual_step G H (u, v, f) = Ok H' ->
  cap0 H' a b =
  cap0 H a b - (if decide ((a, b) = (u, v)) then f else 0)
             + (if decide ((a, b) = (v, u)) then f else 0).
Proof.
  unfold residual_step.
  intros (c & Hc & Hrest)%bind_Ok. case_decide; [done|].
  apply bind_Ok in Hrest as (H1 & HH1 & Hrest).
  pose proof (cap0_add_capacity _ _ _ _ _ a b HH1) as E1.
  unfold has_edge in Hrest. case_bool_decide as Hvu.
  - pose proof (cap0_add_capacity _ _ _ _ _ a b Hrest) as E2.
    rewrite E2, E1. repeat case_decide; lia.
  - injection Hrest as <-. rewrite cap0_add_edge_new, E1.
    + repeat case_decide; lia.
    + by apply eq_None_not_Some.
Qed.

Lemma residual_step_edges G H e H' a b :
  residual_step G H e = Ok H' ->
  is_Some (get_edge H a b) -> is_Some (get_edge H' a b).
Proof.
  destruct e as [[u v] f]. unfold residual_step.
  intros (c & Hc & Hrest)%bind_Ok. case_decide; [done|].
  apply bind_Ok in Hrest as (H1 & HH1 & Hrest). intros Hab.
  apply (get_edge_add_capacity _ _ _ _ _ a b) in HH1 as E1.
  destruct (has_edge H1 v u).
  - apply (get_edge_add_capacity _ _ _ _ _ a b) in Hrest as E2. tauto.
  - injection Hrest as <-. apply get_edge_add_edge. tauto.
Qed.

Lemma residual_step_reverse G H u v f H' :
  residual_step G H (u, v, f) = Ok H' -> is_Some (get_edge H' v u).
Proof.
  unfold residual_step.
  intros (c & Hc & Hrest)%bind_Ok. case_decide; [done|].
  apply bind_Ok in Hrest as (H1 & HH1 & Hrest).
  unfold has_edge in Hrest. case_bool_decide as Hvu.
  - by apply (get_edge_add_capacity _ _ _ _ _ v u) in Hrest as ->.
  - injection Hrest as <-. apply get_edge_add_edge. tauto.
Qed.

Lemma residual_loop_cap0 G flow H H' a b :
  for_each (residual_step G) flow H = Ok H' ->
  cap0 H' a b = cap0 H a b - flow_sum flow a b + flow_sum flow b a.
Proof.
  revert H. induction flow as [|[[u v] f] flow IH]; intros H; simpl.
  - intros [= <-]. lia.
  - intros (H1 & Hstep & Hloop)%bind_Ok.
    rewrite (IH _ Hloop), (residual_step_cap0 _ _ _ _ _ _ a b Hstep).
    repeat case_decide; simplify_eq/=; lia.
Qed.

Lemma residual_loop_edges G flow H H' a b :
  for_each (residual_step G) flow H = Ok H' ->
  is_Some (get_edge H a b) -> is_Some (get_edge H' a b).
Proof.
  revert H. induction flow as [|e flow IH]; intros H; simpl.
  - by intros [= <-].
  - intros (H1 & Hstep & Hloop)%bind_Ok ?. eauto using residual_step_edges.
Qed.

Lemma residual_loop_reverse G flow H H' u v f :
  for_each (residual_step G) flow H = Ok H' ->
  (u, v, f) ∈ flow -> is_Some (get_edge H' v u).
Proof.
  revert H. induction flow as [|e flow IH]; intros H; simpl.
  - by intros _ ?%elem_of_nil.
  - intros (H1 & Hstep & Hloop)%bind_Ok [?|Hin]%elem_of_cons; [subst e|eauto].
    eauto using residual_loop_edges, residual_step_reverse.
Qed.

(** In a dictionary the sum under a key is the value stored there. *)
Lemma flow_sum_absent flow u v : (u, v) ∉ flow.*1 -> flow_sum flow u v = 0.
Proof.
  induction flow as [|[k f] flow IH]; simpl; [done|].
  rewrite not_elem_of_cons. intros [? ?]. case_decide; simplify_eq/=. rewrite IH; [lia|done].
Qed.

Lemma flow_sum_get flow u v :
  dict_keys_ok flow -> flow_sum flow u v = flow_get flow u v.
Proof.
  unfold dict_keys_ok. induction flow as [|[k f] flow IH]; simpl; [done|].
  intros [Hk Hnd]%NoDup_cons. case_decide; simplify_eq/=.
  - rewrite flow_sum_absent; [lia|done].
  - rewrite IH; [lia|done].
Qed.

Lemma flow_get_elem flow u v f :
  dict_keys_ok flow -> (u, v, f) ∈ flow -> flow_get flow u v = f.
Proof.
  unfold dict_keys_ok. induction flow as [|[k f'] flow IH]; simpl.
  - by intros _ ?%elem_of_nil.
  - intros [Hk Hnd]%NoDup_cons [?|Hin]%elem_of_cons; simplify_eq/=.
    + by rewrite decide_True.
    + rewrite decide_False; [auto|]. intros ->. apply Hk.
      apply list_elem_of_fmap. by exists (u, v, f).
Qed.

Lemma flow_get_absent flow u v : (u, v) ∉ flow.*1 -> flow_get flow u v = 0.
Proof.
  induction flow as [|[k f] flow IH]; simpl; [done|].
  rewrite not_elem_of_cons. intros [? ?]. rewrite decide_False; [auto|done].
Qed.

Lemma edge_capacity_cap0 G u v :
  is_Some (get_edge G u v) -> edge_capacity G u v = Ok (cap0 G u v).
Proof. unfold edge_capacity, cap0. by intros [d ->]. Qed.

Lemma cap0_copy G u v : cap0 (copy G) u v = cap0 G u v.
Proof. done. Qed.

(** ** [residual_graph]: which inputs are accepted *)

Lemma residual_step_Ok G H e :
  (∀ a b, is_Some (get_edge G a b) -> is_Some (get_edge H a b)) ->
  item_ok G e -> ∃ H', residual_step G H e = Ok H'.
Proof.
  destruct e as [[u v] f]. unfold item_ok; simpl. intros Hsub Hle.
  destruct (get_edge G u v) as [d|] eqn:Hd; [|done].
  unfold residual_step, edge_capacity. rewrite Hd; simpl.
  rewrite decide_False by lia.
  destruct (add_capacity_Ok H u v (- f)) as [H1 ->]; [eauto|]; simpl.
  unfold has_edge. case_bool_decide as Hvu; [|eauto].
  by apply add_capacity_Ok.
Qed.

Lemma residual_step_not_ok G H e :
  ¬ item_ok G e ->
  residual_step G H e = Raise KeyError ∨ residual_step G H e = Raise ValueError.
Proof.
  destruct e as [[u v] f]. unfold item_ok; simpl. intros Hno.
  unfold residual_step, edge_capacity.
  destruct (get_edge G u v) as [d|] eqn:Hd; simpl; [|by left].
  case_decide; [by right|]. destruct Hno. lia.
Qed.

Lemma residual_loop_Ok G flow H :
  (∀ a b, is_Some (get_edge G a b) -> is_Some (get_edge H a b)) ->
  Forall (item_ok G) flow -> ∃ H', for_each (residual_step G) flow H = Ok H'.
Proof.
  revert H. induction flow as [|e flow IH]; intros H Hsub; simpl; [eauto|].
  intros [He Hfl]%Forall_cons.
  destruct (residual_step_Ok G H e) as [H1 HH1]; [done..|]. rewrite HH1; simpl.
  apply IH; [|done]. eauto using residual_step_edges.
Qed.

Lemma residual_loop_item_ok G flow H H' :
  for_each (residual_step G) flow H = Ok H' -> Forall (item_ok G) flow.
Proof.
  revert H. induction flow as [|e flow IH]; intros H; simpl; [by constructor|].
  intros (H1 & Hstep & Hloop)%bind_Ok. constructor; [|eauto].
  destruct (decide (item_ok G e)) as [|Hno]; [done|].
  destruct (residual_step_not_ok G H e Hno); congruence.
Qed.




Lemma add_capacity_fuel G u v delta : add_capacity G u v delta ≠ OutOfFuel.
Proof. unfold add_capacity. destruct (get_edge G u v); congruence. Qed.

Lemma residual_step_fuel G H x : residual_step G H x ≠ OutOfFuel.
Proof.
  destruct x as [[u v] f]. unfold residual_step, edge_capacity.
  destruct (get_edge G u v) as [d|]; simpl; [|done].
  case_decide; [done|].
  destruct (add_capacity H u v (- f)) as [H2|e1|] eqn:E1; simpl; [|done|].
  - destruct (has_edge H2 v u); [|done]. apply add_capacity_fuel.
  - by apply add_capacity_fuel in E1.
Qed.

Lemma residual_loop_fuel G flow H :
  for_each (residual_step G) flow H ≠ OutOfFuel.
Proof.
  revert H. induction flow as [|x flow IH]; intros H; simpl; [done|].
  destruct (residual_step G H x) as [H1|e1|] eqn:Hs; simpl; [eauto|done|].
  by apply residual_step_fuel in Hs.
Qed.

(** ** [residual_graph]: the result is a well-formed graph *)

Lemma map_edge_keys g u v es : edge_key <$> map_edge g u v es = edge_key <$> es.
Proof.
  unfold map_edge. rewrite <- list_fmap_compose. apply list_fmap_ext.
  intros i e _. simpl. by case_decide.
Qed.

Lemma map_edge_ends g u v es (ns : list node) :
  Forall (fun e => e.1.1 ∈ ns ∧ e.1.2 ∈ ns) es ->
  Forall (fun e => e.1.1 ∈ ns ∧ e.1.2 ∈ ns) (map_edge g u v es).
Proof.
  unfold map_edge. intros Hes. apply Forall_fmap.
  eapply Forall_impl; [done|]. intros e He; simpl. by case_decide.
Qed.

Lemma add_node_elem ns u x : x ∈ add_node ns u ↔ x ∈ ns ∨ x = u.
Proof.
  unfold add_node. case_decide.
  - split; [auto|]. intros [?| ->]; done.
  - by rewrite elem_of_app, list_elem_of_singleton.
Qed.

Lemma add_node_NoDup ns u : NoDup ns -> NoDup (add_node ns u).
Proof.
  unfold add_node. case_decide; [done|]. intros Hnd.
  apply NoDup_app. split_and!; [done| |apply NoDup_singleton].
  by intros x Hx ->%list_elem_of_singleton.
Qed.

Lemma add_capacity_wf G u v delta G' :
  add_capacity G u v delta = Ok G' -> wf_graph G -> wf_graph G'.
Proof.
  unfold add_capacity. destruct (get_edge G u v); [|done].
  intros [= <-] (Hn & Hk & He). unfold wf_graph; simpl.
  rewrite map_edge_keys. split_and!; [done..|]. by apply map_edge_ends.
Qed.

Lemma add_edge_wf G u v c : wf_graph G -> wf_graph (add_edge G u v c).
Proof.
  intros (Hn & Hk & He). unfold add_edge.
  set (ns := add_node (add_node (nodes G) u) v).
  assert (NoDup ns) as Hns by by do 2 apply add_node_NoDup.
  assert (Forall (fun e : node * node * EdgeData => e.1.1 ∈ ns ∧ e.1.2 ∈ ns) (edges G))
    as Hes.
  { eapply Forall_impl; [done|]. intros e [? ?]; simpl. subst ns.
    rewrite !add_node_elem. auto. }
  destruct (get_edge G u v) as [d|] eqn:Hd; unfold wf_graph; simpl.
  - rewrite map_edge_keys. split_and!; [done..|]. by apply map_edge_ends.
  - split_and!; [done| |].
    + rewrite fmap_app. apply NoDup_app. split_and!; [done| |apply NoDup_singleton].
      intros k Hin ->%list_elem_of_singleton.
      apply lookup_edge_is_Some in Hin as [? Hin]. unfold get_edge in Hd. congruence.
    + apply Forall_app. split; [done|]. apply Forall_singleton. simpl. subst ns.
      rewrite !add_node_elem. auto.
Qed.

Lemma residual_step_wf G H e H' :
  residual_step G H e = Ok H' -> wf_graph H -> wf_graph H'.
Proof.
  destruct e as [[u v] f]. unfold residual_step.
  intros (c & Hc & Hrest)%bind_Ok. case_decide; [done|].
  apply bind_Ok in Hrest as (H1 & HH1 & Hrest). intros Hwf.
  apply add_capacity_wf in HH1; [|done].
  destruct (has_edge H1 v u).
  - by eapply add_capacity_wf.
  - injection Hrest as <-. by apply add_edge_wf.
Qed.

(** The graph returned for a well-formed graph is well formed, so that the
    statements about [level_bfs] apply to it. *)
Lemma residual_graph_wf G flow H :
  wf_graph G -> residual_graph G flow = Ok H -> wf_graph H.
Proof.
  intros Hwf. apply (for_each_invariant (residual_step G) wf_graph); [|done].
  intros H1 e H2 _ ? ?. by eapply residual_step_wf.
Qed.

(** ** [residual_graph]: the statements about capacities *)

(** C1, as amended.  Capacities and flow values are integers.  For a flow
    dictionary whose items name edges of [G] and do not exceed their
    capacities, [residual_graph] returns a graph [H]
    in which, for every item [(u, v) : f], the edge [(u, v)] has capacity
    [capacity(u, v) - f + flow(v, u)] and the reverse edge [(v, u)] exists
    with capacity [capacity(v, u) + f - flow(v, u)], an absent edge or item
    counting as 0.  When [(v, u)] carries no flow these are
    [capacity(u, v) - f] and [capacity(v, u) + f]. *)
Theorem residual_graph_capacities G flow :
  dict_keys_ok flow ->
  Forall (item_ok G) flow ->
  ∃ H, residual_graph G flow = Ok H ∧
    ∀ u v f, (u, v, f) ∈ flow ->
      edge_capacity H u v = Ok (cap0 G u v - f + flow_get flow v u) ∧
      edge_capacity H v u = Ok (cap0 G v u + f - flow_get flow v u) ∧
      ((v, u) ∉ flow.*1 ->
         edge_capacity H u v = Ok (cap0 G u v - f) ∧
         edge_capacity H v u = Ok (cap0 G v u + f)).
Proof.
  intros Hkeys Hok.
  destruct (residual_loop_Ok G flow (copy G)) as [H HH]; [done..|].
  exists H. split; [done|]. intros u v f Hin.
  assert (is_Some (get_edge H u v)) as Huv.
  { eapply residual_loop_edges; [done|].
    rewrite Forall_forall in Hok. specialize (Hok _ Hin).
    unfold item_ok in Hok; simpl in Hok. unfold copy, get_edge in *; simpl.
    destruct (lookup_edge (edges G) u v); [eauto|done]. }
  assert (is_Some (get_edge H v u)) as Hvu by eauto using residual_loop_reverse.
  rewrite !edge_capacity_cap0 by done.
  rewrite !(residual_loop_cap0 _ _ _ _ _ _ HH), !cap0_copy.
  rewrite !flow_sum_get by done. rewrite (flow_get_elem flow u v f) by done.
  split; [done|]. split; [f_equal; lia|].
  intros Hno. rewrite (flow_get_absent flow v u) by done. split; f_equal; lia.
Qed.

Lemma residual_graph_capacities_witness :
  ∃ H, residual_graph G_anti flow_anti = Ok H ∧
    ∀ u v f, (u, v, f) ∈ flow_anti ->
      edge_capacity H u v = Ok (cap0 G_anti u v - f + flow_get flow_anti v u) ∧
      edge_capacity H v u = Ok (cap0 G_anti v u + f - flow_get flow_anti v u) ∧
      ((v, u) ∉ flow_anti.*1 ->
         edge_capacity H u v = Ok (cap0 G_anti u v - f) ∧
         edge_capacity H v u = Ok (cap0 G_anti v u + f)).
Proof. apply residual_graph_capacities; by_computation. Defined.

(** C1, as stated, fails when both an edge and its reverse carry flow: with
    capacities 5 and 5 and flows 2 and 1 (within the capacities), the
    returned capacity of [(a, b)] is 4, not [5 - 2]. *)
Lemma residual_graph_antiparallel_cex :
  dict_keys_ok flow_anti ∧
  (∀ u v f, (u, v, f) ∈ flow_anti ->
     ∃ d, get_edge G_anti u v = Some d ∧ 0 ≤ f ≤ capacity d) ∧
  ¬ (∀ H u v f, residual_graph G_anti flow_anti = Ok H ->
       (u, v, f) ∈ flow_anti ->
       edge_capacity H u v = Ok (cap0 G_anti u v - f) ∧
       edge_capacity H v u = Ok (cap0 G_anti v u + f)).
Proof.
  split_and!.
  - by_computation.
  - intros u v f Hin. unfold flow_anti in Hin.
    repeat (apply elem_of_cons in Hin as [[= -> -> ->]|Hin]);
      [eexists; split; [reflexivity|simpl; lia]..|by apply elem_of_nil in Hin].
  - intros Hall.
    destruct (residual_graph G_anti flow_anti) as [H| |] eqn:HH; [|done..].
    destruct (Hall H "a" "b" 2 eq_refl) as [Hab _]; [by_computation|].
    vm_compute in HH. injection HH as <-. vm_compute in Hab. done.
Qed.

(** C9, as amended.  Capacities and flow values are integers.  When
    [residual_graph] accepts [G] and the flow, then for every item [(u, v)]
    of the flow the capacities of [(u, v)] and [(v, u)] in the returned graph
    add up to what they add up to in [G], an absent edge counting as 0. *)
Theorem residual_graph_pair_conservation G flow H u v f :
  residual_graph G flow = Ok H ->
  (u, v, f) ∈ flow ->
  cap0 H u v + cap0 H v u = cap0 G u v + cap0 G v u.
Proof.
  intros HH _. unfold residual_graph in HH.
  rewrite !(residual_loop_cap0 _ _ _ _ _ _ HH), !cap0_copy. lia.
Qed.

Lemma residual_graph_pair_conservation_witness :
  ∃ H, residual_graph G_anti flow_anti = Ok H ∧
       cap0 H "a" "b" + cap0 H "b" "a" = cap0 G_anti "a" "b" + cap0 G_anti "b" "a".
Proof.
  eexists. split; [reflexivity|].
  apply (residual_graph_pair_conservation G_anti flow_anti _ "a" "b" 2);
    [reflexivity|by_computation].
Defined.

(** C9, as stated, fails on floating-point numbers, which the function
    accepts as well: with one edge of capacity 0.9 and a flow of 0.2 on it,
    the returned capacities are [0.9 - 0.2 = 0.7] and 0.2, and [0.7 + 0.2] is
    0.8999999999999999, not the 0.9 of the original pair. *)
Lemma residual_graph_pair_float_cex :
  ∃ H, Binary64.residual_graph Binary64.G_tenths Binary64.flow_tenths = Ok H ∧
    (0.2 <=? Binary64.cap0 Binary64.G_tenths "u" "v")%float = true ∧
    Binary64.cap0 H "u" "v" = 0.7%float ∧
    Binary64.cap0 H "v" "u" = 0.2%float ∧
    (Binary64.cap0 H "u" "v" + Binary64.cap0 H "v" "u"
     =? Binary64.cap0 Binary64.G_tenths "u" "v"
        + Binary64.cap0 Binary64.G_tenths "v" "u")%float = false.
Proof. eexists. split_and!; vm_compute; reflexivity. Qed.

(** On floating-point numbers the updates of an antiparallel pair are
    rounded in the order of the items: with capacities 0.5 on [(a, b)] and
    0.3 on [(b, a)] and the flows 0.1 and 0.2, the edge [(b, a)] ends with
    [(0.3 + 0.1) - 0.2], which is 0.2 and differs from
    [(0.3 - 0.2) + 0.1]. *)
Lemma residual_graph_float_order :
  ∃ H, Binary64.residual_graph Binary64.G_pair Binary64.flow_pair = Ok H ∧
    Binary64.cap0 H "b" "a" = ((0.3 + 0.1) - 0.2)%float ∧
    (Binary64.cap0 H "b" "a" =? (0.3 - 0.2) + 0.1)%float = false.
Proof. eexists. split_and!; vm_compute; reflexivity. Qed.

(** ** [level_bfs]: the loop over the successors *)

Lemma successors_elem R u vs v :
  successors R u = Ok vs -> (v ∈ vs ↔ (u, v) ∈ edge_key <$> edges R).
Proof.
  unfold successors. case_decide; [|done]. intros [= <-].
  rewrite !list_elem_of_fmap. split.
  - intros ([[a b] d] & -> & [Ha Hin]%list_elem_of_filter); simpl in *. subst a.
    by exists (u, b, d).
  - intros ([[a b] d] & [= -> ->] & Hin). exists (a, b, d). split; [done|].
    by apply list_elem_of_filter.
Qed.

Lemma posedge_successor R u vs v :
  successors R u = Ok vs -> posedge R u v -> v ∈ vs.
Proof.
  intros Hs (d & Hd & _). apply (successors_elem _ _ _ _ Hs).
  apply lookup_edge_is_Some. by exists d.
Qed.

(** What one visit does: nothing, or the discovery of [v] over a positive
    edge. *)
Lemma visit_Ok R u st v st' :
  visit R u st v = Ok st' ->
  (st' = st ∧ (is_Some (bfs_parents st !! v) ∨ ¬ posedge R u v)) ∨
  (bfs_parents st !! v = None ∧ posedge R u v ∧
   ∃ lu, bfs_level st !! u = Some lu ∧
     st' = mkBfs (<[v := u]> (bfs_parents st)) (<[v := S lu]> (bfs_level st))
                 (bfs_queue st ++ [v])).
Proof.
  unfold visit, edge_capacity. case_decide as Hp.
  - destruct (get_edge R u v) as [d|] eqn:Hd; simpl; [|done].
    case_decide as Hc.
    + destruct (bfs_level st !! u) as [lu|] eqn:Hl; [|done].
      intros [= <-]. right. split_and!; [done|by exists d|by exists lu].
    + intros [= <-]. left. split; [done|]. right. intros (d' & Hd' & ?).
      rewrite Hd in Hd'. by simplify_eq.
  - intros [= <-]. left. split; [done|]. left.
    by apply not_eq_None_Some.
Qed.

(** The state after the loop over the successors [vs] of [u]. *)
Lemma visit_loop_spec R u vs st st' :
  for_each (visit R u) vs st = Ok st' ->
  ∃ new, bfs_queue st' = bfs_queue st ++ new ∧
    (∀ x, is_Some (bfs_parents st' !! x) ↔
          is_Some (bfs_parents st !! x) ∨ x ∈ new) ∧
    (∀ x, disc st' x ↔ disc st x ∨ x ∈ new) ∧
    (∀ x, x ∈ new -> x ∈ vs ∧ posedge R u x) ∧
    (∀ x, x ∈ vs -> posedge R u x -> is_Some (bfs_parents st' !! x)).
Proof.
  revert st. induction vs as [|v vs IH]; intros st; simpl.
  - intros [= <-]. exists []. rewrite app_nil_r. split_and!; try done.
    + intros x. rewrite elem_of_nil. tauto.
    + intros x. rewrite elem_of_nil. tauto.
    + by intros x ?%elem_of_nil.
    + by intros x ?%elem_of_nil.
  - intros (st1 & Hv & Hloop)%bind_Ok.
    destruct (IH _ Hloop) as (new & Hq & Hp & Hl & Hn & Hall).
    apply visit_Ok in Hv as [[-> Hsame]|(Hnone & Hpos & lu & Hlu & ->)].
    + exists new. split_and!; try done.
      * intros x Hx. destruct (Hn x Hx). split; [by apply list_elem_of_further|done].
      * intros x [->|Hx]%elem_of_cons Hpe; [|by auto].
        destruct Hsame as [?|?]; [|done]. apply Hp. by left.
    + exists (v :: new). simpl in *. split_and!.
      * by rewrite Hq, <- app_assoc.
      * intros x. rewrite Hp, elem_of_cons, lookup_insert_is_Some.
        destruct (decide (v = x)) as [->|]; [|intuition congruence].
        split; [auto|]. intros _. left. by left.
      * intros x. rewrite Hl. unfold disc; simpl.
        rewrite elem_of_cons, lookup_insert_is_Some.
        destruct (decide (v = x)) as [->|]; [|intuition congruence].
        split; [auto|]. intros _. left. by left.
      * intros x [->|Hx]%elem_of_cons.
        -- split; [apply list_elem_of_here|done].
        -- destruct (Hn x Hx). split; [by apply list_elem_of_further|done].
      * intros x [->|Hx]%elem_of_cons Hpe; [|by auto].
        apply Hp. left. rewrite lookup_insert_eq. by eexists.
Qed.

Lemma visit_disc R u st v st' x :
  visit R u st v = Ok st' -> disc st x -> disc st' x.
Proof.
  intros [[-> _]|(_ & _ & lu & _ & ->)]%visit_Ok; [done|].
  unfold disc; simpl. rewrite lookup_insert_is_Some.
  destruct (decide (v = x)); auto.
Qed.

(** The loop over the successors raises nothing when every successor is an
    edge of [R] and [u] has a level. *)
Lemma visit_loop_total R u vs st :
  (∀ v, v ∈ vs -> is_Some (get_edge R u v)) -> disc st u ->
  ∃ st', for_each (visit R u) vs st = Ok st'.
Proof.
  revert st. induction vs as [|v vs IH]; intros st Hedge Hu; simpl; [eauto|].
  assert (∃ st1, visit R u st v = Ok st1) as [st1 Hv].
  { unfold visit, edge_capacity. case_decide; [|eauto].
    destruct (Hedge v) as [d ->]; [apply list_elem_of_here|]; simpl.
    case_decide; [|eauto]. destruct Hu as [lu ->]. eauto. }
  rewrite Hv; simpl. apply IH.
  - intros; apply Hedge. by apply list_elem_of_further.
  - eauto using visit_disc.
Qed.

(** ** [level_bfs]: termination *)

Lemma filter_parents_le (parents : gmap node node) v u
    (es : list (node * node * EdgeData)) :
  (length (filter (fun e => <[v := u]> parents !! e.1.2 = None) es) ≤
   length (filter (fun e => parents !! e.1.2 = None) es))%nat.
Proof.
  induction es as [|e es IH]; [done|].
  rewrite !filter_cons. repeat case_decide; simpl; try lia.
  exfalso. destruct (decide (v = e.1.2)) as [->|Hne].
  - by rewrite lookup_insert_eq in *.
  - by rewrite lookup_insert_ne in * by done.
Qed.

Lemma filter_parents_lt (parents : gmap node node) v u
    (es : list (node * node * EdgeData)) e :
  parents !! v = None -> e ∈ es -> e.1.2 = v ->
  (length (filter (fun e => <[v := u]> parents !! e.1.2 = None) es) <
   length (filter (fun e => parents !! e.1.2 = None) es))%nat.
Proof.
  intros Hnone Hin Hv. induction es as [|e' es IH]; [by apply elem_of_nil in Hin|].
  pose proof (filter_parents_le parents v u es) as Hle.
  rewrite !filter_cons. apply elem_of_cons in Hin as [<-|Hin].
  - rewrite Hv, lookup_insert_eq. rewrite decide_False by done.
    rewrite decide_True by done. simpl. lia.
  - specialize (IH Hin). repeat case_decide; simpl; try lia.
    exfalso. destruct (decide (v = e'.1.2)) as [->|Hne].
    + by rewrite lookup_insert_eq in *.
    + by rewrite lookup_insert_ne in * by done.
Qed.

Lemma visit_loop_measure R u vs st st' :
  (∀ v, v ∈ vs -> (u, v) ∈ edge_key <$> edges R) ->
  for_each (visit R u) vs st = Ok st' ->
  (bfs_measure R st' ≤ bfs_measure R st)%nat.
Proof.
  revert st. induction vs as [|v vs IH]; intros st Hedge; simpl.
  - intros [= <-]. done.
  - intros (st1 & Hv & Hloop)%bind_Ok.
    etrans; [apply (IH st1); [|done] | ].
    { intros; apply Hedge. by apply list_elem_of_further. }
    apply visit_Ok in Hv as [[-> _]|(Hnone & _ & lu & _ & ->)]; [done|].
    unfold bfs_measure; simpl. rewrite length_app; simpl.
    pose proof (Hedge v (list_elem_of_here _ _)) as (e & He & Hin)%list_elem_of_fmap.
    pose proof (filter_parents_lt (bfs_parents st) v u (edges R) e Hnone Hin) as Hlt.
    destruct e as [[a b] d]. unfold edge_key in He; simpl in *. simplify_eq.
    specialize (Hlt eq_refl). lia.
Qed.

(** The loop ends on every graph: the fuel is never the reason to stop. *)
Lemma bfs_loop_terminates R t fuel st :
  (bfs_measure R st < fuel)%nat -> bfs_loop fuel R t st ≠ OutOfFuel.
Proof.
  revert st. induction fuel as [|fuel IH]; intros st Hm; [lia|].
  simpl. destruct (bfs_queue st) as [|u q] eqn:Hq; [done|].
  case_decide; [done|].
  destruct (successors R u) as [vs| |] eqn:Hvs; simpl; [|done|].
  - destruct (for_each (visit R u) vs _) as [st1| |] eqn:Hloop; simpl.
    + apply IH. apply visit_loop_measure in Hloop.
      * unfold bfs_measure in *. rewrite Hq in Hm. simpl in *. lia.
      * intros v Hv. by apply (successors_elem _ _ _ _ Hvs).
    + done.
    + exfalso. revert Hloop. generalize (mkBfs (bfs_parents st) (bfs_level st) q).
      clear. induction vs as [|v vs IHvs]; intros st0; simpl; [done|].
      destruct (visit R u st0 v) as [st1| |] eqn:Hv; simpl; [by apply IHvs|done|].
      intros _. revert Hv. unfold visit, edge_capacity.
      case_decide; [|done]. destruct (get_edge R u v); simpl; [|done].
      case_decide; [|done]. by destruct (bfs_level st0 !! u).
  - unfold successors in Hvs. by case_decide.
Qed.

Lemma level_bfs_terminates R flow s t : level_bfs R flow s t ≠ OutOfFuel.
Proof.
  unfold level_bfs.
  destruct (level_bfs_run R flow s t) as [st| |] eqn:Hrun; simpl; [done..|].
  exfalso. revert Hrun. apply bfs_loop_terminates.
  unfold bfs_measure; simpl. do 2 apply le_n_S. apply length_filter.
Qed.

(** ** [level_bfs]: the loop invariant *)

Lemma wf_graph_head R u v :
  wf_graph R -> (u, v) ∈ edge_key <$> edges R -> v ∈ nodes R.
Proof.
  intros (_ & _ & Hends) (e & He & Hin)%list_elem_of_fmap.
  rewrite Forall_forall in Hends. destruct (Hends e Hin) as [_ Hv].
  destruct e as [[a b] d]. unfold edge_key in He; simpl in *. by simplify_eq.
Qed.

Lemma hop_S_inv R s n v :
  hop R s (S n) v -> ∃ u, hop R s n u ∧ posedge R u v.
Proof. inversion 1; subst. eauto. Qed.

Lemma hop_O_inv R s v : hop R s 0 v -> v = s.
Proof. by inversion 1. Qed.

Lemma bfs_inv_init R s :
  s ∈ nodes R ->
  bfs_inv R s 0 [s] [] (mkBfs ∅ {[s := 0%nat]} [s]).
Proof.
  intros Hs.
  assert (disc (mkBfs ∅ {[s := 0%nat]} [s]) s) as Hd.
  { unfold disc; simpl. rewrite lookup_singleton_eq. by eexists. }
  split; simpl; try done.
  - intros x [? Hx]. by rewrite lookup_empty in Hx.
  - intros n x Hh Hn. assert (n = 0%nat) as -> by lia.
    by apply hop_O_inv in Hh as ->.
  - intros u v ->%hop_O_inv _. right. apply list_elem_of_here.
  - intros u [l Hu]. simpl in Hu. apply lookup_singleton_Some in Hu as [<- _].
    left. apply list_elem_of_here.
  - intros u ->%list_elem_of_singleton. constructor.
  - by intros u ?%elem_of_nil.
  - by intros u ->%list_elem_of_singleton.
Qed.

(** When the block [A] is exhausted, the block [B] becomes the front. *)
Lemma bfs_inv_shift R s L B st :
  bfs_inv R s L [] B st -> bfs_inv R s (S L) B [] st.
Proof.
  intros [Hq Hs Hp Hnear Hfront Hdone HA HB Hsafe].
  assert (∀ n x, hop R s n x -> (n ≤ S L)%nat -> disc st x) as Hnear'.
  { intros n x Hh Hn. destruct (decide (n ≤ L)%nat); [eauto|].
    assert (n = S L) as -> by lia.
    apply hop_S_inv in Hh as (u & Hu & Hux).
    destruct (Hfront u x Hu Hux) as [?|?%elem_of_nil]; done. }
  split; try done.
  - by rewrite app_nil_r.
  - intros x Hx. destruct (Hp x Hx) as (? & m & ? & ?). split; [done|].
    exists m. split; [lia|done].
  - intros u v Hu Huv. destruct (Hdone u) as [Hin|Hex]; [eauto| |by left; apply Hex].
    right. by rewrite Hq in Hin.
  - by intros u ?%elem_of_nil.
Qed.

(** One iteration of the [while] loop with the head [u] of the front block. *)
Lemma bfs_inv_step R s L u A' B st vs st' :
  wf_graph R ->
  bfs_inv R s L (u :: A') B st ->
  successors R u = Ok vs ->
  for_each (visit R u) vs (mkBfs (bfs_parents st) (bfs_level st) (A' ++ B)) = Ok st' ->
  ∃ B', bfs_inv R s L A' B' st'.
Proof.
  intros Hwf [Hq Hs Hp Hnear Hfront Hdone HA HB Hsafe] Hvs Hloop.
  apply visit_loop_spec in Hloop as (new & Hq' & Hp' & Hd' & Hnew & Hall).
  simpl in *.
  assert (∀ x, disc st x -> disc st' x) as Hmono.
  { intros x Hx. apply Hd'. by left. }
  assert (hop R s L u) as Hu by (apply HA, list_elem_of_here).
  assert (∀ x, x ∈ new -> hop R s (S L) x) as Hnew_hop.
  { intros x [_ Hx]%Hnew. by econstructor. }
  assert (expanded R st' u) as Hexp.
  { intros v Hv. pose proof (posedge_successor _ _ _ _ Hvs Hv) as Hin.
    pose proof (Hall v Hin Hv) as Hpar. apply Hp' in Hpar as [Hpar|Hpar].
    - apply Hmono. by apply Hp.
    - apply Hd'. by right. }
  exists (B ++ new). split.
  - by rewrite Hq', app_assoc.
  - by apply Hmono.
  - intros x [Hx|Hx]%Hp'.
    + destruct (Hp x Hx) as [? ?]. auto.
    + split; [apply Hd'; by right|]. exists (S L). split; [lia|auto].
  - intros n x Hh Hn. apply Hmono. eauto.
  - intros a b Ha Hab. destruct (Hfront a b Ha Hab) as [?|[->|?]%elem_of_cons]; auto.
  - intros a [Ha|Ha]%Hd'.
    + destruct (Hdone a Ha) as [Hin|Hex].
      * rewrite Hq in Hin. apply elem_of_cons in Hin as [->|Hin]; [by right|].
        left. rewrite Hq'. apply elem_of_app. by left.
      * right. intros b Hb. apply Hmono. by apply Hex.
    + left. rewrite Hq'. apply elem_of_app. by right.
  - intros a Ha. apply HA. by apply list_elem_of_further.
  - intros a [Ha|Ha]%elem_of_app; auto.
  - intros a. rewrite Hq'. intros [Ha|Ha]%elem_of_app.
    + destruct (Hsafe a) as [? ?]; [|by auto].
      rewrite Hq. by apply list_elem_of_further.
    + split; [|apply Hd'; by right].
      destruct (Hnew a Ha) as [Hin _].
      eapply wf_graph_head; [done|]. by apply (successors_elem _ _ _ _ Hvs).
Qed.

Lemma bfs_inv_next R s L A B st u q vs st' :
  wf_graph R ->
  bfs_inv R s L A B st ->
  bfs_queue st = u :: q ->
  successors R u = Ok vs ->
  for_each (visit R u) vs (mkBfs (bfs_parents st) (bfs_level st) q) = Ok st' ->
  ∃ L' A' B', bfs_inv R s L' A' B' st'.
Proof.
  intros Hwf Hinv Hq Hvs Hloop. destruct A as [|a A'].
  - apply bfs_inv_shift in Hinv. pose proof (inv_queue _ _ _ _ _ _ Hinv) as Hq'.
    rewrite Hq, app_nil_r in Hq'. subst B.
    destruct (bfs_inv_step R s (S L) u q [] st vs st') as [B' ?]; eauto.
    by rewrite app_nil_r.
  - pose proof (inv_queue _ _ _ _ _ _ Hinv) as Hq'.
    rewrite Hq in Hq'. simpl in Hq'. injection Hq' as <- ->.
    destruct (bfs_inv_step R s L u A' B st vs st') as [B' ?]; eauto.
Qed.

(** The invariant holds when the loop is left, and the loop is left with an
    empty queue or with a parent for the target. *)
Lemma bfs_loop_inv R s t fuel st st' L A B :
  wf_graph R ->
  bfs_inv R s L A B st ->
  bfs_loop fuel R t st = Ok st' ->
  (∃ L' A' B', bfs_inv R s L' A' B' st') ∧
  (bfs_queue st' = [] ∨ is_Some (bfs_parents st' !! t)).
Proof.
  intros Hwf. revert st L A B. induction fuel as [|fuel IH]; intros st L A B Hinv; simpl; [done|].
  destruct (bfs_queue st) as [|u q] eqn:Hq.
  - intros [= <-]. split; [eauto|by left].
  - case_decide as Ht.
    + intros [= <-]. split; [eauto|by right].
    + intros (vs & Hvs & (st1 & Hloop & Hrest)%bind_Ok)%bind_Ok.
      destruct (bfs_inv_next R s L A B st u q vs st1) as (L' & A' & B' & Hinv'); eauto.
Qed.

(** With enough fuel the loop returns: it raises nothing and ends. *)
Lemma bfs_loop_total R s t fuel st L A B :
  wf_graph R ->
  bfs_inv R s L A B st ->
  (bfs_measure R st < fuel)%nat ->
  ∃ st', bfs_loop fuel R t st = Ok st'.
Proof.
  intros Hwf. revert st L A B. induction fuel as [|fuel IH]; intros st L A B Hinv Hm; [lia|].
  simpl. destruct (bfs_queue st) as [|u q] eqn:Hq; [eauto|].
  case_decide as Ht; [eauto|].
  destruct (inv_safe _ _ _ _ _ _ Hinv u) as [Hu Hdu]; [rewrite Hq; apply list_elem_of_here|].
  assert (∃ vs, successors R u = Ok vs) as [vs Hvs].
  { unfold successors. rewrite decide_True by done. eauto. }
  rewrite Hvs; simpl.
  destruct (visit_loop_total R u vs (mkBfs (bfs_parents st) (bfs_level st) q))
    as [st1 Hloop]; [|done|].
  { intros v Hv. apply lookup_edge_is_Some. by apply (successors_elem _ _ _ _ Hvs). }
  rewrite Hloop; simpl.
  destruct (bfs_inv_next R s L A B st u q vs st1) as (L' & A' & B' & Hinv'); eauto.
  eapply IH; [done|].
  apply visit_loop_measure in Hloop.
  - unfold bfs_measure in *. rewrite Hq in Hm. simpl in *. lia.
  - intros v Hv. by apply (successors_elem _ _ _ _ Hvs).
Qed.

(** ** [level_bfs]: the statements *)

Lemma level_bfs_run_source R flow s t st :
  level_bfs_run R flow s t = Ok st -> s ∈ nodes R.
Proof.
  unfold level_bfs_run; simpl. rewrite lookup_empty.
  rewrite decide_False by (by intros [? ?]).
  unfold successors. by case_decide.
Qed.

Lemma level_bfs_run_unknown_source R flow s t :
  s ∉ nodes R -> level_bfs_run R flow s t = Raise NetworkXError.
Proof.
  intros Hs. unfold level_bfs_run; simpl. rewrite lookup_empty.
  rewrite decide_False by (by intros [? ?]).
  unfold successors. by rewrite decide_False.
Qed.

(** [level_bfs] returns on every graph that contains the source. *)
Lemma level_bfs_run_total R flow s t :
  wf_graph R -> s ∈ nodes R -> ∃ st, level_bfs_run R flow s t = Ok st.
Proof.
  intros Hwf Hs. unfold level_bfs_run.
  eapply bfs_loop_total; [done|by apply bfs_inv_init|].
  unfold bfs_measure; simpl. do 2 apply le_n_S. apply length_filter.
Qed.

Lemma bfs_loop_parents_pos R t fuel st st' :
  parents_pos R st -> bfs_loop fuel R t st = Ok st' -> parents_pos R st'.
Proof.
  revert st. induction fuel as [|fuel IH]; intros st Hpos; simpl; [done|].
  destruct (bfs_queue st) as [|u q] eqn:Hq; [by intros [= <-]|].
  case_decide; [by intros [= <-]|].
  intros (vs & Hvs & (st1 & Hloop & Hrest)%bind_Ok)%bind_Ok.
  apply (IH st1); [|done].
  apply (for_each_invariant (visit R u) (parents_pos R) vs
           (mkBfs (bfs_parents st) (bfs_level st) q) st1);
    [|exact Hpos|exact Hloop].
  intros s1 x s2 _ Hs1 [[-> _]|(_ & Hpe & lu & _ & ->)]%visit_Ok; [done|].
  intros v' u'; simpl. rewrite lookup_insert_Some.
  intros [[<- <-]|[_ ?]]; [done|by apply Hs1].
Qed.

Lemma level_bfs_run_parents_pos R flow s t st :
  level_bfs_run R flow s t = Ok st -> parents_pos R st.
Proof.
  apply bfs_loop_parents_pos. intros v u; simpl. by rewrite lookup_empty.
Qed.

Lemma level_bfs_unfold R flow s t st :
  level_bfs_run R flow s t = Ok st ->
  level_bfs R flow s t = Ok (bfs_parents st, bfs_level st).
Proof. unfold level_bfs. by intros ->. Qed.

(** C3, as amended.  [level_bfs] leaves its loop early only once the sink has
    a parent (it tests this before each dequeue, so the sink need not have
    been dequeued), and the level map it returns contains every node whose
    hop distance over positive-capacity edges is smaller than that of the
    sink: a node reached by a walk of [n] edges is in the map whenever no
    walk of 1 to [n] edges reaches the sink. *)
Theorem level_bfs_complete_below_sink R flow s t st :
  wf_graph R ->
  level_bfs_run R flow s t = Ok st ->
  level_bfs R flow s t = Ok (bfs_parents st, bfs_level st) ∧
  (bfs_queue st ≠ [] -> is_Some (bfs_parents st !! t)) ∧
  (∀ n v, hop R s n v ->
     (∀ m, (1 ≤ m ≤ n)%nat -> ¬ hop R s m t) ->
     is_Some (bfs_level st !! v)).
Proof.
  intros Hwf Hrun. split; [by apply level_bfs_unfold|].
  pose proof (level_bfs_run_source _ _ _ _ _ Hrun) as Hs.
  destruct (bfs_loop_inv R s t _ _ st 0 [s] [] Hwf (bfs_inv_init R s Hs) Hrun)
    as [(L & A & B & Hinv) Hexit].
  split; [intros Hne; by destruct Hexit|].
  intros n v Hh Hfar. destruct Hexit as [Hempty|Ht].
  - clear Hfar. induction Hh as [|n u v Hu IH Huv].
    + apply (inv_source _ _ _ _ _ _ Hinv).
    + destruct (inv_done _ _ _ _ _ _ Hinv u IH) as [Hin|Hex]; [|by apply Hex].
      rewrite Hempty in Hin. by apply elem_of_nil in Hin.
  - destruct (inv_parents _ _ _ _ _ _ Hinv t Ht) as (_ & m & Hm & Hmt).
    apply (inv_near _ _ _ _ _ _ Hinv n v Hh).
    destruct (decide (m ≤ n)%nat) as [Hle|]; [|lia].
    destruct (Hfar m); [lia|done].
Qed.

Lemma level_bfs_complete_below_sink_witness :
  ∃ st, level_bfs_run R_fork [] "s" "t" = Ok st ∧
    level_bfs R_fork [] "s" "t" = Ok (bfs_parents st, bfs_level st) ∧
    (bfs_queue st ≠ [] -> is_Some (bfs_parents st !! "t")) ∧
    (∀ n v, hop R_fork "s" n v ->
       (∀ m, (1 ≤ m ≤ n)%nat -> ¬ hop R_fork "s" m "t") ->
       is_Some (bfs_level st !! v)).
Proof.
  eexists. split; [vm_compute; reflexivity|].
  apply level_bfs_complete_below_sink; [by_computation|vm_compute; reflexivity].
Defined.

(** C3, as stated, fails on the graph with the branches [s -> a -> t] and
    [s -> b -> x]: the loop is left when [t] has a parent, with [b] and [t]
    itself still in the queue, and [x], at the hop distance 2 of the sink, is
    not in the level map. *)
Lemma level_bfs_sink_level_cex :
  ∃ st, level_bfs_run R_fork [] "s" "t" = Ok st ∧
    level_bfs R_fork [] "s" "t" = Ok (bfs_parents st, bfs_level st) ∧
    bfs_level st !! "t" = Some 2%nat ∧
    bfs_queue st = ["b"; "t"] ∧
    hop R_fork "s" 2 "x" ∧
    bfs_level st !! "x" = None.
Proof.
  eexists. split; [vm_compute; reflexivity|].
  split_and!; try (vm_compute; reflexivity).
  apply (hop_S _ _ 1 "b"); [apply (hop_S _ _ 0 "s"); [constructor|]|]; solve_posedge.
Qed.

(** C2 at its failing input: on the cycle [s -> a -> s] with [a -> t] the
    source, at hop distance 0, is discovered a second time over [a -> s] and
    is returned with level 2. *)
Lemma level_bfs_source_relabelled :
  ∃ parents level,
    level_bfs R_cycle [] "s" "t" = Ok (parents, level) ∧
    level !! "s" = Some 2%nat ∧
    parents !! "s" = Some "a" ∧
    hop R_cycle "s" 0 "s".
Proof.
  eexists _, _. split; [vm_compute; reflexivity|].
  split_and!; try (vm_compute; reflexivity). constructor.
Qed.

(** ** No validation of capacities *)




(** ** [check_valid_flow] *)

Lemma to_double_exn z e : to_double z = Raise e -> e = OverflowError.
Proof. unfold to_double. destruct (is_infinity _); congruence. Qed.

Lemma to_double_fuel z : to_double z ≠ OutOfFuel.
Proof. unfold to_double. destruct (is_infinity _); congruence. Qed.

(** [math.isclose] on integers answers or raises an [OverflowError], the
    latter exactly when one of the two conversions does. *)
Lemma isclose_cases a b :
  (∃ near, isclose a b = Ok near) ∨
  (isclose a b = Raise OverflowError ∧
   (to_double a = Raise OverflowError ∨ to_double b = Raise OverflowError)).
Proof.
  unfold isclose.
  destruct (to_double a) as [x|e| ] eqn:Ha; simpl.
  - destruct (to_double b) as [y|e| ] eqn:Hb; simpl.
    + left. destruct (x =? y)%float; [eauto|].
      destruct (is_infinity x || is_infinity y); eauto.
    + apply to_double_exn in Hb as ->. right. auto.
    + by apply to_double_fuel in Hb.
  - apply to_double_exn in Ha as ->. right. auto.
  - by apply to_double_fuel in Ha.
Qed.

Lemma isclose_exn a b e : isclose a b = Raise e -> e = OverflowError.
Proof. destruct (isclose_cases a b) as [[? ->]|[-> _]]; congruence. Qed.

Lemma isclose_fuel a b : isclose a b ≠ OutOfFuel.
Proof. destruct (isclose_cases a b) as [[? ->]|[-> _]]; congruence. Qed.

(** The default relative tolerance is the double that the literal [1e-09]
    denotes. *)
Lemma rel_tol_value : rel_tol = 1e-09%float.
Proof. reflexivity. Qed.

Lemma int_str_bound_value : int_str_bound = 10 ^ 4300.
Proof. vm_compute. reflexivity. Qed.

(** Values of [math.isclose]: integers that differ by one part in 10^9 or
    less are close, also where the exact quotient is slightly above 10^-9
    (the tolerance is a rounded double and so is the product); an integer
    of 401 digits has no double. *)
Lemma isclose_values :
  isclose 30 5 = Ok false ∧
  isclose (-1) (-1) = Ok true ∧
  isclose 999999999 999999998 = Ok false ∧
  isclose 1000000000 999999999 = Ok true ∧
  isclose 8455279999999999 8455279991544719 = Ok true ∧
  isclose 99999999999999999 99999999899999999 = Ok true ∧
  isclose (10 ^ 400) (10 ^ 400) = Raise OverflowError.
Proof. split_and!; vm_compute; reflexivity. Qed.

(** Sums *)











(** What one iteration prints. *)
Lemma check_step_printed G flow s t H u v f H' :
  check_step G flow s t H (u, v, f) = Ok H' ->
  is_Some (get_edge G u v) ∧
  ∀ m, m ∈ printed H' ↔
       m ∈ printed H ∨
       (m = CapacityViolated u v ∧ f > cap0 G u v) ∨
       (m = ConservationViolated v ∧ conservation_fails G flow s t v).
Proof.
  unfold check_step, edge_capacity, cap0, conservation_fails.
  destruct (get_edge G u v) as [d|]; simpl; [|done].
  destruct (format_label f (capacity d)) as [label| |]; simpl; [|done..].
  intros Hstep. split; [by eexists|]. revert Hstep.
  set (H2 := if decide (f > capacity d) then _ else _).
  assert (∀ m, m ∈ printed H2 ↔
            m ∈ printed H ∨ (m = CapacityViolated u v ∧ f > capacity d)) as HH2.
  { intros m. subst H2. case_decide; simpl.
    - rewrite elem_of_app, list_elem_of_singleton. intuition.
    - intuition. }
  clearbody H2. case_decide as Hv.
  - destruct (incoming_flow G flow v) as [i| |]; simpl; [|done..].
    destruct (outgoing_flow G flow v) as [o| |]; simpl; [|done..].
    destruct (isclose i o) as [[|]| |] eqn:Hc; simpl; [| |done..];
      intros [= <-]; intros m; simpl.
    + rewrite HH2. split; [intuition|].
      intros [?|[?|(_ & _ & _ & i' & o' & ? & ? & ?)]]; [auto..|]. simplify_eq.
      congruence.
    + rewrite elem_of_app, list_elem_of_singleton, HH2. split.
      * intros [[?|?]| ->]; [auto..|]. right; right. split; [done|].
        destruct Hv. split_and!; [done..|]. by exists i, o.
      * intros [?|[?|[-> _]]]; auto.
  - intros [= <-] m. rewrite HH2. split; [intuition|].
    intros [?|[?|(_ & ? & ? & _)]]; [auto..|]. destruct Hv. done.
Qed.

Lemma check_loop_printed G flow s t items H H' :
  for_each (check_step G flow s t) items H = Ok H' ->
  Forall (fun e => is_Some (get_edge G e.1.1 e.1.2)) items ∧
  ∀ m, m ∈ printed H' ↔
       m ∈ printed H ∨
       ∃ u v f, (u, v, f) ∈ items ∧
         ((m = CapacityViolated u v ∧ f > cap0 G u v) ∨
          (m = ConservationViolated v ∧ conservation_fails G flow s t v)).
Proof.
  revert H. induction items as [|[[u v] f] items IH]; intros H.
  - intros [= <-]. split; [constructor|]. intros m. split; [auto|].
    intros [?|(? & ? & ? & ?%elem_of_nil & _)]; done.
  - simpl. intros (H1 & Hstep & Hloop)%bind_Ok.
    apply check_step_printed in Hstep as [Hedge Hstep].
    destruct (IH _ Hloop) as [Hall Hrest]. split; [by constructor|].
    intros m. rewrite Hrest, Hstep. split.
    + intros [[?|Hm]|(u' & v' & f' & Hin & Hm)]; [by left| |].
      * right. exists u, v, f. split; [apply list_elem_of_here|done].
      * right. exists u', v', f'. split; [by apply list_elem_of_further|done].
    + intros [?|(u' & v' & f' & [[= -> -> ->]|Hin]%elem_of_cons & Hm)]; [auto..|].
      right. by exists u', v', f'.
Qed.





(** The nodes that are examined for conservation are the heads of the flow
    items: a flow of 5 on [a -> t] alone leaves [a] with inflow 0 and outflow
    5, and nothing is printed. *)
Lemma check_valid_flow_tail_unexamined :
  ∃ H, check_valid_flow G_path flow_tail "s" "t" = Ok H ∧
    incoming_flow G_path flow_tail "a" = Ok 0 ∧
    outgoing_flow G_path flow_tail "a" = Ok 5 ∧
    printed H = [].
Proof.
  eexists. split; [vm_compute; reflexivity|].
  split_and!; vm_compute; reflexivity.
Qed.

(** Sums that differ are not always reported: with 99999999999999999 into
    [a] and 99999999899999999 out of it [math.isclose] answers [True] and
    nothing is printed. *)
Lemma check_valid_flow_close_sums :
  ∃ H, check_valid_flow G_wide flow_wide "s" "t" = Ok H ∧
    incoming_flow G_wide flow_wide "a" = Ok 99999999999999999 ∧
    outgoing_flow G_wide flow_wide "a" = Ok 99999999899999999 ∧
    printed H = [].
Proof.
  eexists. split; [vm_compute; reflexivity|].
  split_and!; vm_compute; reflexivity.
Qed.

(** ** Nodes and edges that are not in the graph *)

Lemma flow_sums_Ok G flow v :
  v ∈ nodes G ->
  ∃ i o, incoming_flow G flow v = Ok i ∧ outgoing_flow G flow v = Ok o.
Proof.
  intros Hv. unfold incoming_flow, outgoing_flow, predecessors, successors.
  rewrite !decide_True by done. simpl. eauto.
Qed.

Lemma format_label_cases f c :
  (printable f ∧ printable c ∧ format_label f c = Ok (f, c)) ∨
  (¬ (printable f ∧ printable c) ∧ format_label f c = Raise ValueError).
Proof.
  unfold format_label. case_decide as Hp; [left|right]; [by destruct Hp|done].
Qed.

Lemma check_step_result G flow s t H e :
  wf_graph G ->
  (item_checked G flow s t e ∧ ∃ H', check_step G flow s t H e = Ok H') ∨
  (¬ item_checked G flow s t e ∧
   ∃ x, check_step G flow s t H e = Raise x ∧ check_raises G flow [e] s t x).
Proof.
  intros Hwf. destruct e as [[u v] f].
  unfold item_checked, check_raises, check_step, edge_capacity, cap0. simpl.
  destruct (get_edge G u v) as [d|] eqn:Hd; simpl.
  - destruct (format_label_cases f (capacity d)) as [(Hpf & Hpc & ->)|[Hp ->]]; simpl.
    + case_decide as Hv.
      * destruct (flow_sums_Ok G flow v) as (i & o & Hi & Ho).
        { eapply wf_graph_head; [done|]. apply lookup_edge_is_Some. by exists d. }
        rewrite Hi, Ho. simpl.
        destruct (isclose_cases i o) as [[near Hc]|[Hc _]]; rewrite Hc; simpl.
        -- left. split; [|destruct near; eauto].
           split_and!; [by eexists|done..|]. intros _ _. by exists i, o, near.
        -- right. split.
           { intros (_ & _ & Hch). destruct Hv as [Hs Ht].
             destruct (Hch Hs Ht) as (i' & o' & near & ? & ? & ?). simplify_eq.
             congruence. }
           exists OverflowError. split; [done|]. right; right. split; [done|].
           destruct Hv. exists u, v, f, i, o.
           split_and!; [apply list_elem_of_here|done..].
      * left. split; [|eauto]. split_and!; [by eexists|done..|].
        intros Hs Ht. destruct Hv. done.
    + right. split; [by intros (_ & ? & _)|].
      exists ValueError. split; [done|]. right; left. split; [done|].
      exists u, v, f. split; [apply list_elem_of_here|]. by rewrite Hd.
  - right. split; [by intros [[? ?] _]|].
    exists KeyError. split; [done|]. left. split; [done|].
    exists u, v, f. split; [apply list_elem_of_here|done].
Qed.

Lemma check_raises_mono G flow items items' s t x :
  (∀ e, e ∈ items -> e ∈ items') ->
  check_raises G flow items s t x -> check_raises G flow items' s t x.
Proof.
  intros Hsub [[-> (u & v & f & Hin & ?)]|[[-> (u & v & f & Hin & ?)]|
                                          [-> (u & v & f & i & o & Hin & ?)]]].
  - left. split; [done|]. exists u, v, f. auto.
  - right; left. split; [done|]. exists u, v, f. auto.
  - right; right. split; [done|]. exists u, v, f, i, o. auto.
Qed.

Lemma check_loop_result G flow s t items H :
  wf_graph G ->
  (Forall (item_checked G flow s t) items ∧
   ∃ H', for_each (check_step G flow s t) items H = Ok H') ∨
  (¬ Forall (item_checked G flow s t) items ∧
   ∃ x, for_each (check_step G flow s t) items H = Raise x ∧
        check_raises G flow items s t x).
Proof.
  intros Hwf. revert H. induction items as [|e items IH]; intros H.
  - left. split; [constructor|]. simpl. eauto.
  - simpl.
    destruct (check_step_result G flow s t H e Hwf)
      as [[Hch [H1 ->]]|[Hch (x & -> & Hx)]]; simpl.
    + destruct (IH H1) as [[Hall Hok]|[Hall (x & Hx & Hr)]].
      * left. split; [by constructor|done].
      * right. split; [by intros [_ ?]%Forall_cons|].
        exists x. split; [done|].
        eapply check_raises_mono; [|done]. intros. by apply list_elem_of_further.
    + right. split; [by intros [? _]%Forall_cons|].
      exists x. split; [done|].
      eapply check_raises_mono; [|done].
      intros e' ->%list_elem_of_singleton. apply list_elem_of_here.
Qed.

(** C8, as amended.  There is no validation at entry and no [UnknownNode]
    error, and whether the source and the target are nodes of the graph
    plays no part.  On a well-formed graph, when [check_valid_flow] returns,
    every flow item is an edge of [G] and [math.isclose] has answered for
    the sums at every head that is not a terminal; conversely it returns
    when that holds and the numbers of the labels have at most 4300 digits.
    When it raises, it is a [KeyError] for a flow item that is not an edge
    of [G], a [ValueError] for a label with a number of more than 4300
    digits, or the [OverflowError] of [math.isclose]; and when some flow item
    is not an edge of [G] it does not return.  [level_bfs] raises a
    [NetworkXError] when the source is not a node of [R] and returns
    otherwise, whether or not the target is a node of [R]. *)
Theorem unknown_nodes_handling G flow s t :
  wf_graph G ->
  ((∃ H, check_valid_flow G flow s t = Ok H) ->
     ∀ u v f, (u, v, f) ∈ flow ->
       is_Some (get_edge G u v) ∧
       (v ≠ s -> v ≠ t ->
        ∃ i o near, incoming_flow G flow v = Ok i ∧
                    outgoing_flow G flow v = Ok o ∧ isclose i o = Ok near)) ∧
  ((∀ u v f, (u, v, f) ∈ flow ->
       is_Some (get_edge G u v) ∧
       (printable f ∧ printable (cap0 G u v)) ∧
       (v ≠ s -> v ≠ t ->
        ∃ i o near, incoming_flow G flow v = Ok i ∧
                    outgoing_flow G flow v = Ok o ∧ isclose i o = Ok near)) ->
     ∃ H, check_valid_flow G flow s t = Ok H) ∧
  (∀ e, check_valid_flow G flow s t = Raise e ->
     (e = KeyError ∧ ∃ u v f, (u, v, f) ∈ flow ∧ get_edge G u v = None) ∨
     (e = ValueError ∧
      ∃ u v f, (u, v, f) ∈ flow ∧ ¬ (printable f ∧ printable (cap0 G u v))) ∨
     (e = OverflowError ∧
      ∃ u v f i o, (u, v, f) ∈ flow ∧ v ≠ s ∧ v ≠ t ∧
        incoming_flow G flow v = Ok i ∧ outgoing_flow G flow v = Ok o ∧
        isclose i o = Raise OverflowError)) ∧
  ((∃ u v f, (u, v, f) ∈ flow ∧ get_edge G u v = None) ->
     ∃ e, check_valid_flow G flow s t = Raise e) ∧
  (level_bfs G flow s t = Raise NetworkXError ↔ s ∉ nodes G) ∧
  ((∃ parents level, level_bfs G flow s t = Ok (parents, level)) ↔ s ∈ nodes G).
Proof.
  intros Hwf.
  pose proof (check_loop_result G flow s t flow (mkFlowReport [] flow.*1 [] [] []) Hwf)
    as Hres.
  fold (check_valid_flow G flow s t) in Hres.
  assert (Forall (item_checked G flow s t) flow ↔
          ∀ u v f, (u, v, f) ∈ flow ->
            is_Some (get_edge G u v) ∧
            (printable f ∧ printable (cap0 G u v)) ∧
            (v ≠ s -> v ≠ t ->
             ∃ i o near, incoming_flow G flow v = Ok i ∧
                         outgoing_flow G flow v = Ok o ∧ isclose i o = Ok near))
    as Hall.
  { rewrite Forall_forall. split.
    - intros Hf u v f Hin. apply (Hf _ Hin).
    - intros Hf [[u v] f] Hin. by apply (Hf u v f). }
  assert (level_bfs G flow s t = Raise NetworkXError ↔ s ∉ nodes G) as Hbfs.
  { split.
    - intros Hr Hs. destruct (level_bfs_run_total G flow s t Hwf Hs) as [st Hst].
      apply level_bfs_unfold in Hst. congruence.
    - intros Hs. unfold level_bfs. by rewrite level_bfs_run_unknown_source. }
  split_and!.
  - intros [H HH] u v f Hin.
    destruct Hres as [[Hch _]|[_ (x & Hx & _)]]; [|congruence].
    destruct (proj1 Hall Hch u v f Hin) as (? & _ & ?). done.
  - intros Hch%Hall. destruct Hres as [[_ Hok]|[Hno _]]; done.
  - intros e He. destruct Hres as [[_ [H HH]]|[_ (x & Hx & Hr)]]; [congruence|].
    rewrite Hx in He. injection He as <-. exact Hr.
  - intros (u & v & f & Hin & Hnone).
    destruct Hres as [[Hch _]|[_ (x & Hx & _)]]; [|by exists x].
    destruct (proj1 Hall Hch u v f Hin) as [[? ?] _]. congruence.
  - done.
  - split.
    + intros (p & l & Hok). destruct (decide (s ∈ nodes G)) as [|Hs]; [done|].
      apply Hbfs in Hs. congruence.
    + intros Hs. destruct (level_bfs_run_total G flow s t Hwf Hs) as [st Hst].
      exists (bfs_parents st), (bfs_level st). by apply level_bfs_unfold.
Qed.

Lemma unknown_nodes_handling_witness :
  (∃ e, check_valid_flow G_path flow_unknown "s" "t" = Raise e) ∧
  level_bfs G_path flow_unknown "zz" "t" = Raise NetworkXError.
Proof.
  destruct (unknown_nodes_handling G_path flow_unknown "s" "t") as (_ & _ & _ & Hk & _);
    [by_computation|].
  destruct (unknown_nodes_handling G_path flow_unknown "zz" "t")
    as (_ & _ & _ & _ & Hn & _); [by_computation|].
  split.
  - apply Hk. exists "a", "zz", 1. split; [by_computation|reflexivity].
  - apply Hn. by_computation.
Defined.

(** C8, as stated, fails: a target that is not a node of the graph is
    accepted by [check_valid_flow] and by [level_bfs], which both return. *)
Lemma unknown_target_accepted_cex :
  ("zz" ∉ nodes G_path) ∧
  (∃ H, check_valid_flow G_path flow_over "s" "zz" = Ok H) ∧
  (∃ parents level, level_bfs G_path flow_over "s" "zz" = Ok (parents, level)).
Proof.
  split_and!.
  - by_computation.
  - eexists. vm_compute; reflexivity.
  - eexists _, _. vm_compute; reflexivity.
Qed.

(** The exceptions at work: an edge that is not in the graph gives a
    [KeyError]; on a flow of 10^400 along [s -> a -> t], every edge being in
    the graph, the sums at [a] have no double and [math.isclose] raises,
    while [residual_graph] accepts the flow; a flow of 10^4300 cannot be put
    in a label. *)
Lemma check_valid_flow_exceptions :
  check_valid_flow G_path flow_unknown "s" "t" = Raise KeyError ∧
  check_valid_flow G_huge flow_huge "s" "t" = Raise OverflowError ∧
  (∃ H, residual_graph G_huge flow_huge = Ok H) ∧
  check_valid_flow G_path [("s", "a", 10 ^ 4300)] "s" "t" = Raise ValueError.
Proof.
  split_and!; [vm_compute; reflexivity..| |vm_compute; reflexivity].
  eexists. vm_compute; reflexivity.
Qed.

(** ** [aug_path_dfs] *)


Lemma chain_reaches R parents s u n :
  chain R parents s u n -> reaches parents s u n.
Proof. induction 1; econstructor; eauto. Qed.







(** C4 at its failing input: on the residual graph of [s -> t] (capacity 10,
    flow 1) the parents of [level_bfs] give the path [t, s], whose only edge
    has residual capacity 9, and [aug_path_dfs] returns the seed
    [3 * max(flow.values()) = 3]. *)
Lemma aug_path_dfs_seed_below_bottleneck :
  residual_graph G_one flow_one = Ok R_one ∧
  (∃ level, level_bfs R_one flow_one "s" "t" = Ok (parents_one, level)) ∧
  aug_path_dfs 2 R_one parents_one flow_one "s" "t" = Ok (["t"; "s"], 3) ∧
  edge_capacity R_one "s" "t" = Ok 9.
Proof.
  split_and!; [reflexivity| |reflexivity..].
  eexists. vm_compute. reflexivity.
Qed.

(** The second term of the minimum: with flow on both [s -> t] and [t -> s]
    the residual capacity 7 of the path edge is lowered by the flow 1 of the
    reverse key [(t, s)], and 6 is returned. *)
Lemma aug_path_dfs_subtracts_reverse_flow :
  ∃ R, residual_graph G_both flow_both = Ok R ∧
    (∃ level, level_bfs R flow_both "s" "t" = Ok (parents_one, level)) ∧
    aug_path_dfs 2 R parents_one flow_both "s" "t" = Ok (["t"; "s"], 6) ∧
    edge_capacity R "s" "t" = Ok 7.
Proof.
  eexists. split; [vm_compute; reflexivity|].
  split_and!; [|reflexivity..].
  eexists. vm_compute. reflexivity.
Qed.

(** ** [residual_graph] on the store: the input graph is not updated *)

Lemma store_read_old (s : Heap.store) (H : DiGraph) (g : Heap.ref) G :
  s !! g = Some G -> (s ++ [H]) !! g = Some G.
Proof. intros. by apply lookup_app_l_Some. Qed.

Lemma store_read_new (s : Heap.store) (H : DiGraph) :
  (s ++ [H]) !! length s = Some H.
Proof. by rewrite list_lookup_middle. Qed.

Lemma store_write_new (s : Heap.store) (H H' : DiGraph) :
  <[length s := H']> (s ++ [H]) = s ++ [H'].
Proof.
  rewrite insert_app_r_alt by lia. by rewrite Nat.sub_diag.
Qed.

Lemma heap_modify_new (s : Heap.store) H f :
  Heap.modify (length s) f (s ++ [H]) =
  match f H with
  | Ok H' => (Ok tt, s ++ [H'])
  | Raise e => (Raise e, s ++ [H])
  | OutOfFuel => (OutOfFuel, s ++ [H])
  end.
Proof.
  unfold Heap.modify, Heap.bindM, Heap.read, Heap.lift, Heap.write.
  rewrite store_read_new. destruct (f H); [|done..].
  by rewrite store_write_new.
Qed.

(** One iteration on the store is one iteration on the value of the new
    object; only that object is written. *)
Lemma heap_residual_step (s : Heap.store) g e G H :
  s !! g = Some G ->
  ∃ H1, Heap.residual_step g (length s) e (s ++ [H]) =
          (returning tt (residual_step G H e), s ++ [H1]) ∧
        ∀ H', residual_step G H e = Ok H' -> H1 = H'.
Proof.
  intros Hg. destruct e as [[u v] f].
  unfold Heap.residual_step, residual_step, Heap.bindM at 1 2, Heap.read at 1, Heap.lift.
  rewrite (store_read_old _ _ _ _ Hg).
  destruct (edge_capacity G u v) as [c| |]; simpl; [|by exists H..].
  case_decide; [by exists H|].
  unfold Heap.bindM at 1. rewrite heap_modify_new.
  destruct (add_capacity H u v (- f)) as [H1| |]; simpl; [|by exists H..].
  unfold Heap.bindM, Heap.read at 1. rewrite store_read_new.
  destruct (has_edge H1 v u); rewrite heap_modify_new.
  - destruct (add_capacity H1 v u f) as [H2| |]; simpl; [|by exists H1..].
    exists H2. split; [done|]. by intros ? [= <-].
  - exists (add_edge H1 v u f). split; [done|]. by intros ? [= <-].
Qed.

Lemma heap_residual_loop (s : Heap.store) g flow G H :
  s !! g = Some G ->
  ∃ H1, Heap.residual_loop g (length s) flow (s ++ [H]) =
          (returning tt (for_each (residual_step G) flow H), s ++ [H1]) ∧
        ∀ H', for_each (residual_step G) flow H = Ok H' -> H1 = H'.
Proof.
  intros Hg. revert H. induction flow as [|e flow IH]; intros H; simpl.
  - exists H. split; [done|]. by intros ? [= <-].
  - destruct (heap_residual_step s g e G H Hg) as (H1 & Hstep & Hval).
    unfold Heap.bindM. rewrite Hstep.
    destruct (residual_step G H e) as [H2| |]; simpl; [|by exists H1..].
    rewrite (Hval H2 eq_refl). apply IH.
Qed.

(** The call allocates the copy, works on it and returns its reference. *)
Lemma heap_residual_graph (s : Heap.store) g flow G :
  s !! g = Some G ->
  ∃ H1, Heap.residual_graph g flow s =
          (returning (length s) (residual_graph G flow), s ++ [H1]) ∧
        ∀ H', residual_graph G flow = Ok H' -> H1 = H'.
Proof.
  intros Hg. unfold Heap.residual_graph, Heap.bindM at 1 2, Heap.read, Heap.alloc.
  rewrite Hg.
  destruct (heap_residual_loop s g flow G (copy G) Hg) as (H1 & Hloop & Hval).
  unfold Heap.bindM. rewrite Hloop. exists H1. split; [|done].
  unfold residual_graph. by destruct (for_each (residual_step G) flow (copy G)).
Qed.

(** C7, as amended.  [residual_graph] does not update the graph it is given:
    it copies it ([H = G.copy()]), does all the bookkeeping on the copy and
    returns the copy.  After the call every object that existed before, the
    argument included, is unchanged, and the reference returned is a new one
    that holds the residual graph. *)
Theorem residual_graph_input_unchanged (s : Heap.store) g flow G r s' :
  s !! g = Some G ->
  Heap.residual_graph g flow s = (r, s') ->
  s' !! g = Some G ∧
  (∀ k : nat, (k < length s)%nat -> s' !! k = s !! k) ∧
  (∀ h, r = Ok h ->
     h = length s ∧ h ≠ g ∧
     ∃ H, residual_graph G flow = Ok H ∧ s' !! h = Some H).
Proof.
  intros Hg Hrun.
  destruct (heap_residual_graph s g flow G Hg) as (H1 & Hcall & Hval).
  rewrite Hcall in Hrun. injection Hrun as <- <-.
  split_and!.
  - by apply store_read_old.
  - intros k Hk. by apply lookup_app_l.
  - intros h. destruct (residual_graph G flow) as [H| |]; simpl; [|done..].
    intros [= <-]. split_and!; [done| |].
    + apply lookup_lt_Some in Hg. lia.
    + exists H. split; [done|]. rewrite (Hval H eq_refl). apply store_read_new.
Qed.

Lemma residual_graph_input_unchanged_witness :
  ∃ r s', Heap.residual_graph 0%nat flow_one [G_one] = (r, s') ∧
    s' !! 0%nat = Some G_one ∧
    (∀ k : nat, (k < length [G_one])%nat -> s' !! k = [G_one] !! k) ∧
    (∀ h, r = Ok h ->
       h = length [G_one] ∧ h ≠ 0%nat ∧
       ∃ H, residual_graph G_one flow_one = Ok H ∧ s' !! h = Some H).
Proof.
  eexists _, _. split; [reflexivity|].
  apply (residual_graph_input_unchanged [G_one] 0%nat flow_one G_one);
    reflexivity.
Defined.

(** C7, as stated, fails: with the flow 1 on the edge [s -> t] of capacity
    10, the call returns a new object with the capacity 9, and the object it
    was given still has the capacity 10. *)
Lemma residual_graph_in_place_cex :
  ∃ s', Heap.residual_graph 0%nat flow_one [G_one] = (Ok 1%nat, s') ∧
    s' !! 0%nat = Some G_one ∧
    cap0 G_one "s" "t" = 10 ∧
    s' !! 1%nat = Some R_one ∧
    cap0 R_one "s" "t" = 9.
Proof.
  eexists. split; [reflexivity|]. split_and!; reflexivity.
Qed.

(** * Further properties of the notebook code *)

(** ** [residual_graph]: the edges that the flow does not name *)

Lemma get_edge_add_capacity_ne G u v delta G' a b :
  add_capacity G u v delta = Ok G' -> (a, b) ≠ (u, v) ->
  get_edge G' a b = get_edge G a b.
Proof.
  unfold add_capacity, get_edge.
  destruct (lookup_edge (edges G) u v); [|done].
  intros [= <-] Hne; simpl. rewrite lookup_edge_map. by rewrite decide_False.
Qed.

Lemma get_edge_add_capacity_eq G u v delta G' :
  add_capacity G u v delta = Ok G' ->
  get_edge G' u v =
  (fun d => mkEdgeData (capacity d + delta) (etype_rev d)) <$> get_edge G u v.
Proof.
  unfold add_capacity, get_edge.
  destruct (lookup_edge (edges G) u v) eqn:Hd; [|done].
  intros [= <-]; simpl. rewrite lookup_edge_map, decide_True by done.
  by rewrite Hd.
Qed.

Lemma get_edge_add_edge_ne G u v c a b :
  (a, b) ≠ (u, v) -> get_edge (add_edge G u v c) a b = get_edge G a b.
Proof.
  intros Hne. unfold add_edge, get_edge.
  destruct (lookup_edge (edges G) u v); simpl.
  - rewrite lookup_edge_map. by rewrite decide_False.
  - rewrite lookup_edge_snoc. rewrite decide_False by done.
    by destruct (lookup_edge (edges G) a b).
Qed.

Lemma residual_step_frame G H u v f H' a b :
  residual_step G H (u, v, f) = Ok H' ->
  (a, b) ≠ (u, v) -> (a, b) ≠ (v, u) ->
  get_edge H' a b = get_edge H a b.
Proof.
  unfold residual_step.
  intros (c & Hc & Hrest)%bind_Ok Huv Hvu. case_decide; [done|].
  apply bind_Ok in Hrest as (H1 & HH1 & Hrest).
  rewrite <- (get_edge_add_capacity_ne _ _ _ _ _ a b HH1 Huv).
  destruct (has_edge H1 v u).
  - by apply (get_edge_add_capacity_ne _ _ _ _ _ a b Hrest).
  - injection Hrest as <-. by apply get_edge_add_edge_ne.
Qed.

(** X1.  [residual_graph] touches only the edges named by the flow and their
    reverses: for a pair [(a, b)] such that neither [(a, b)] nor [(b, a)] is
    a key of the flow, the returned graph has the edge [(a, b)] exactly when
    [G] has it, with the same attributes. *)
Theorem residual_graph_frame G flow H a b :
  residual_graph G flow = Ok H ->
  (a, b) ∉ flow.*1 -> (b, a) ∉ flow.*1 ->
  get_edge H a b = get_edge G a b.
Proof.
  unfold residual_graph. change (get_edge G a b) with (get_edge (copy G) a b).
  generalize (copy G). induction flow as [|[[u v] f] flow IH]; intros H0; simpl.
  - by intros [= <-].
  - intros (H1 & Hstep & Hloop)%bind_Ok [Hab ?]%not_elem_of_cons [Hba ?]%not_elem_of_cons.
    rewrite (IH H1) by done.
    eapply residual_step_frame; [done|congruence|]. intros [= -> ->]. done.
Qed.

Lemma residual_graph_frame_witness :
  ∃ H, residual_graph G_path [("s", "a", 3)] = Ok H ∧
       get_edge H "a" "t" = get_edge G_path "a" "t".
Proof.
  eexists. split; [reflexivity|].
  apply (residual_graph_frame G_path [("s", "a", 3)]); [reflexivity|by_computation..].
Defined.

(** ** [residual_graph]: successive calls *)

Lemma flow_sum_rev flow a b : flow_sum (flow_rev flow) a b = flow_sum flow b a.
Proof.
  induction flow as [|[[u v] f] flow IH]; simpl; [done|].
  rewrite IH. repeat case_decide; simplify_eq/=; done.
Qed.

Lemma flow_rev_keys flow : dict_keys_ok flow -> dict_keys_ok (flow_rev flow).
Proof.
  unfold dict_keys_ok, flow_rev. intros Hnd.
  rewrite <- list_fmap_compose.
  replace (fst ∘ (fun e : node * node * Z => (e.1.2, e.1.1, e.2)))
    with ((fun k : node * node => (k.2, k.1)) ∘ (fst : node * node * Z -> node * node))
    by done.
  rewrite list_fmap_compose. apply NoDup_fmap_2; [|done].
  intros [a b] [c d] [= -> ->]. done.
Qed.

(** X2.  Capacities and flow values are integers.  The capacities after two
    successive calls: each pair [(a, b)] has lost what the two flows send
    over [(a, b)] and gained what they send over [(b, a)]. *)
Theorem residual_graph_twice G flow1 flow2 H1 H2 a b :
  dict_keys_ok flow1 -> dict_keys_ok flow2 ->
  residual_graph G flow1 = Ok H1 ->
  residual_graph H1 flow2 = Ok H2 ->
  cap0 H2 a b =
  cap0 G a b - (flow_get flow1 a b + flow_get flow2 a b)
             + (flow_get flow1 b a + flow_get flow2 b a).
Proof.
  intros Hk1 Hk2 HH1 HH2. unfold residual_graph in *.
  rewrite (residual_loop_cap0 _ _ _ _ _ _ HH2), cap0_copy.
  rewrite (residual_loop_cap0 _ _ _ _ _ _ HH1), cap0_copy.
  rewrite !flow_sum_get by done. lia.
Qed.

Lemma residual_graph_twice_witness :
  ∃ H1 H2, residual_graph G_path [("s", "a", 3)] = Ok H1 ∧
    residual_graph H1 [("a", "s", 2)] = Ok H2 ∧
    cap0 H2 "s" "a" =
    cap0 G_path "s" "a"
      - (flow_get [("s", "a", 3)] "s" "a" + flow_get [("a", "s", 2)] "s" "a")
      + (flow_get [("s", "a", 3)] "a" "s" + flow_get [("a", "s", 2)] "a" "s").
Proof.
  eexists _, _. split; [reflexivity|]. split; [reflexivity|].
  eapply (residual_graph_twice G_path [("s", "a", 3)] [("a", "s", 2)]);
    [by_computation|by_computation|reflexivity|reflexivity].
Defined.

(** X3.  Capacities and flow values are integers.  Cancelling a flow: when
    the capacities of [G] are not negative and
    [residual_graph] accepts a flow, it also accepts, on the returned graph,
    the flow that sends every amount back over the reverse edge, and the
    graph returned then has the capacities of [G] again. *)
Theorem residual_graph_cancel G flow H :
  dict_keys_ok flow ->
  (∀ a b, 0 ≤ cap0 G a b) ->
  residual_graph G flow = Ok H ->
  ∃ H', residual_graph H (flow_rev flow) = Ok H' ∧
        ∀ a b, cap0 H' a b = cap0 G a b.
Proof.
  intros Hkeys Hpos HH.
  assert (Forall (item_ok G) flow) as Hok by by eapply residual_loop_item_ok.
  assert (∀ a b, cap0 H a b = cap0 G a b - flow_get flow a b + flow_get flow b a)
    as Hcap.
  { intros a b. unfold residual_graph in HH.
    rewrite (residual_loop_cap0 _ _ _ _ _ _ HH), cap0_copy.
    by rewrite !flow_sum_get. }
  assert (∀ a b, flow_get flow a b ≤ cap0 G a b) as Hle.
  { intros a b. destruct (decide ((a, b) ∈ flow.*1)) as [Hin|Hno].
    - apply list_elem_of_fmap in Hin as ([[a' b'] f] & [= <- <-] & Hin).
      rewrite (flow_get_elem flow a b f) by done.
      rewrite Forall_forall in Hok. specialize (Hok _ Hin).
      unfold item_ok, cap0 in *; simpl in *. by destruct (get_edge G a b).
    - rewrite flow_get_absent by done. apply Hpos. }
  destruct (residual_loop_Ok H (flow_rev flow) (copy H)) as [H' HH']; [done| |].
  { unfold flow_rev. apply Forall_fmap, Forall_forall. intros [[u v] f] Hin.
    unfold item_ok; simpl.
    pose proof (residual_loop_reverse _ _ _ _ _ _ _ HH Hin) as [d Hd].
    rewrite Hd. pose proof (Hcap v u) as Hvu. unfold cap0 in Hvu at 1.
    rewrite Hd in Hvu. rewrite Hvu, (flow_get_elem flow u v f) by done.
    specialize (Hle v u). lia. }
  exists H'. split; [done|]. intros a b.
  rewrite (residual_loop_cap0 _ _ _ _ _ _ HH'), cap0_copy, Hcap.
  rewrite !flow_sum_rev, !flow_sum_get by done. lia.
Qed.

Lemma residual_graph_cancel_witness :
  ∃ H', residual_graph R_one (flow_rev flow_one) = Ok H' ∧
        ∀ a b, cap0 H' a b = cap0 G_one a b.
Proof.
  apply (residual_graph_cancel G_one flow_one R_one);
    [by_computation| |reflexivity].
  intros a b. unfold cap0, get_edge, G_one; simpl. case_decide; simpl; lia.
Defined.

(** ** [residual_graph]: the shape of the returned graph *)

Lemma wf_graph_tail R u v :
  wf_graph R -> (u, v) ∈ edge_key <$> edges R -> u ∈ nodes R.
Proof.
  intros (_ & _ & Hends) (e & He & Hin)%list_elem_of_fmap.
  rewrite Forall_forall in Hends. destruct (Hends e Hin) as [Hu _].
  destruct e as [[a b] d]. unfold edge_key in He; simpl in *. by simplify_eq.
Qed.

Lemma get_edge_add_edge_eq G u v c :
  get_edge (add_edge G u v c) u v = Some (mkEdgeData c true).
Proof.
  unfold add_edge, get_edge.
  destruct (lookup_edge (edges G) u v) eqn:Hd; simpl.
  - rewrite lookup_edge_map, decide_True by done. by rewrite Hd.
  - rewrite lookup_edge_snoc, Hd. by rewrite decide_True.
Qed.

Lemma add_node_in ns u : u ∈ ns -> add_node ns u = ns.
Proof. intros. unfold add_node. by rewrite decide_True. Qed.

Lemma residual_shape_add_capacity G flow H u v delta H' :
  residual_shape G flow H ->
  add_capacity H u v delta = Ok H' ->
  residual_shape G flow H'.
Proof.
  intros (Hn & Hsub & [new Hk] & Hty) Hadd. split_and!.
  - revert Hadd. unfold add_capacity. destruct (get_edge H u v); [|done].
    by intros [= <-].
  - intros a b Hab. apply (get_edge_add_capacity _ _ _ _ _ a b Hadd). auto.
  - exists new. revert Hadd. unfold add_capacity. destruct (get_edge H u v); [|done].
    intros [= <-]; simpl. by rewrite map_edge_keys.
  - intros a b d Hd. destruct (decide ((a, b) = (u, v))) as [[= -> ->]|Hne].
    + rewrite (get_edge_add_capacity_eq _ _ _ _ _ Hadd) in Hd.
      destruct (get_edge H u v) as [d1|] eqn:Hd1; [|done].
      injection Hd as <-; simpl. by apply Hty.
    + rewrite (get_edge_add_capacity_ne _ _ _ _ _ a b Hadd) in Hd by done. auto.
Qed.

Lemma residual_shape_add_edge G flow H u v f :
  residual_shape G flow H ->
  get_edge H v u = None -> (u, v, f) ∈ flow ->
  u ∈ nodes G -> v ∈ nodes G ->
  residual_shape G flow (add_edge H v u f).
Proof.
  intros (Hn & Hsub & [new Hk] & Hty) Hnone Hin Hu Hv. split_and!.
  - unfold add_edge. rewrite Hnone; simpl.
    rewrite Hn, (add_node_in _ v), (add_node_in _ u); done.
  - intros a b Hab. apply get_edge_add_edge. auto.
  - exists (new ++ [(v, u)]). unfold add_edge. rewrite Hnone; simpl.
    by rewrite fmap_app, Hk, app_assoc.
  - intros a b d Hd. destruct (decide ((a, b) = (v, u))) as [[= -> ->]|Hne].
    + rewrite get_edge_add_edge_eq in Hd. injection Hd as <-. right.
      split_and!; [|done|by exists f].
      destruct (get_edge G v u) eqn:HG; [|done].
      destruct (Hsub v u) as [? ?]; [by eexists|congruence].
    + rewrite get_edge_add_edge_ne in Hd by done. auto.
Qed.

Lemma residual_step_shape G flow H e H' :
  wf_graph G -> e ∈ flow ->
  residual_shape G flow H -> residual_step G H e = Ok H' ->
  residual_shape G flow H'.
Proof.
  intros Hwf Hin Hshape. destruct e as [[u v] f]. unfold residual_step, edge_capacity.
  destruct (get_edge G u v) as [d|] eqn:Hd; simpl; [|done].
  case_decide; [done|].
  intros (H1 & HH1 & Hrest)%bind_Ok.
  pose proof (residual_shape_add_capacity _ _ _ _ _ _ _ Hshape HH1) as Hshape1.
  unfold has_edge in Hrest. case_bool_decide as Hvu.
  - by eapply residual_shape_add_capacity.
  - injection Hrest as <-.
    assert ((u, v) ∈ edge_key <$> edges G) as Hkey.
    { apply lookup_edge_is_Some. by exists d. }
    apply residual_shape_add_edge; [done| |done| |].
    + by apply eq_None_not_Some.
    + by eapply wf_graph_tail.
    + by eapply wf_graph_head.
Qed.

Lemma successors_keys G u :
  successors G u =
  if decide (u ∈ nodes G)
  then Ok (snd <$> filter (fun k => k.1 = u) (edge_key <$> edges G))
  else Raise NetworkXError.
Proof.
  unfold successors. case_decide; [|done]. f_equal.
  induction (edges G) as [|e es IH]; [done|].
  rewrite fmap_cons, !filter_cons. unfold edge_key at 1. simpl.
  destruct (decide (e.1.1 = u)); rewrite ?fmap_cons, IH; done.
Qed.

(** X4.  The graph returned for a well-formed [G] has the nodes of [G];
    every node has the successors it has in [G], in the same order, followed
    by its new successors; each edge of the returned graph is an edge of [G]
    with the [etype] it has there, or it is absent from [G], carries
    [etype="rev"] and reverses an item of the flow. *)
Theorem residual_graph_shape G flow H :
  wf_graph G ->
  residual_graph G flow = Ok H ->
  nodes H = nodes G ∧
  (∀ u vs, successors G u = Ok vs ->
     ∃ new, successors H u = Ok (vs ++ new) ∧
            ∀ v, v ∈ new -> get_edge G u v = None ∧ ∃ f, (v, u, f) ∈ flow) ∧
  (∀ a b d, get_edge H a b = Some d ->
     (∃ d0, get_edge G a b = Some d0 ∧ etype_rev d = etype_rev d0) ∨
     (get_edge G a b = None ∧ etype_rev d = true ∧ ∃ f, (b, a, f) ∈ flow)).
Proof.
  intros Hwf HH.
  assert (residual_shape G flow H) as (Hn & _ & [new Hk] & Hty).
  { apply (for_each_invariant (residual_step G) (residual_shape G flow) flow (copy G) H);
      [|split_and!|done].
    - intros H1 e H2 Hin Hs Hstep. by eapply residual_step_shape.
    - done.
    - auto.
    - exists []. by rewrite app_nil_r.
    - intros a b d Hd. left. by exists d. }
  split_and!; [done| |done].
  intros u vs. rewrite !successors_keys, Hn, Hk. case_decide; [|done].
  intros [= <-]. rewrite filter_app, fmap_app. eexists. split; [done|].
  intros v ([a b] & -> & [Ha Hin]%list_elem_of_filter)%list_elem_of_fmap.
  simpl in *. subst a.
  assert (NoDup (edge_key <$> edges H)) as Hnd.
  { by apply (residual_graph_wf G flow H) in HH as (_ & ? & _). }
  rewrite Hk in Hnd. apply NoDup_app in Hnd as (_ & Hdisj & _).
  assert (get_edge G u b = None) as Hnone.
  { apply eq_None_not_Some. intros Hs%lookup_edge_is_Some.
    by apply (Hdisj (u, b)). }
  split; [done|].
  assert (is_Some (get_edge H u b)) as [d Hd].
  { apply lookup_edge_is_Some. rewrite Hk, elem_of_app. by right. }
  destruct (Hty u b d Hd) as [(d0 & ? & _)|(_ & _ & Hf)]; [congruence|done].
Qed.

Lemma residual_graph_shape_witness :
  nodes R_one = nodes G_one ∧
  (∀ u vs, successors G_one u = Ok vs ->
     ∃ new, successors R_one u = Ok (vs ++ new) ∧
            ∀ v, v ∈ new -> get_edge G_one u v = None ∧ ∃ f, (v, u, f) ∈ flow_one) ∧
  (∀ a b d, get_edge R_one a b = Some d ->
     (∃ d0, get_edge G_one a b = Some d0 ∧ etype_rev d = etype_rev d0) ∨
     (get_edge G_one a b = None ∧ etype_rev d = true ∧ ∃ f, (b, a, f) ∈ flow_one)).
Proof.
  apply (residual_graph_shape G_one flow_one R_one); [by_computation|reflexivity].
Defined.

(** ** [level_bfs]: what the returned dictionaries mean *)

Lemma reaches_mono (p p' : gmap node node) s u n :
  (∀ x y, p !! x = Some y -> p' !! x = Some y) ->
  reaches p s u n -> reaches p' s u n.
Proof. intros Hsub. induction 1; econstructor; eauto. Qed.

Lemma bfs_links_init R s : bfs_links R s (mkBfs ∅ {[s := 0%nat]} [s]).
Proof.
  split; unfold disc; cbn [bfs_level bfs_parents bfs_queue].
  - intros v k [<- <-]%lookup_singleton_Some. constructor.
  - intros v. rewrite lookup_empty. split.
    + intros [k [<- _]%lookup_singleton_Some]. by left.
    + intros [->|[? ?]]; [|done]. rewrite lookup_singleton_eq. by eexists.
  - intros v [? Hv]. by rewrite lookup_empty in Hv.
  - intros v [k [<- _]%lookup_singleton_Some]. exists 0%nat. constructor.
  - intros _. apply lookup_singleton_eq.
Qed.

Lemma bfs_links_queue R s st q :
  bfs_links R s st -> bfs_links R s (mkBfs (bfs_parents st) (bfs_level st) q).
Proof. intros [? ? ? ? ?]. by split. Qed.

Lemma visit_links R s u st v st' :
  bfs_links R s st -> visit R u st v = Ok st' -> bfs_links R s st'.
Proof.
  intros Hl [[-> _]|(Hnone & Hpe & lu & Hlu & ->)]%visit_Ok; [done|].
  destruct Hl as [Hwalk Hdom Hpos Hchain Hsrc].
  assert (∀ x y, bfs_parents st !! x = Some y ->
                 <[v := u]> (bfs_parents st) !! x = Some y) as Hsub.
  { intros x y Hx. rewrite lookup_insert_ne; [done|]. intros ->. congruence. }
  split; simpl.
  - intros x k. rewrite lookup_insert_Some. intros [[<- <-]|[_ Hx]]; [|auto].
    econstructor; eauto.
  - intros x. unfold disc in *; simpl. rewrite !lookup_insert_is_Some, Hdom.
    destruct (decide (v = x)); intuition.
  - intros x. rewrite lookup_insert_is_Some. intros [<-|[Hne Hx]].
    + exists lu. apply lookup_insert_eq.
    + destruct (Hpos x Hx) as [k Hk]. exists k. by rewrite lookup_insert_ne.
  - intros x. unfold disc in *; simpl. rewrite lookup_insert_is_Some.
    intros [<-|[Hne Hx]].
    + destruct (decide (v = s)) as [->|Hvs]; [exists 0%nat; constructor|].
      destruct (Hchain u) as [n Hn]; [by eexists|].
      exists (S n). econstructor; [done|apply lookup_insert_eq|].
      by eapply reaches_mono.
    + destruct (Hchain x Hx) as [n Hn]. exists n. by eapply reaches_mono.
  - intros Hs. apply lookup_insert_None in Hs as [Hs Hne].
    rewrite lookup_insert_ne by done. auto.
Qed.

Lemma bfs_loop_links R s t fuel st st' :
  bfs_links R s st -> bfs_closed R st ->
  bfs_loop fuel R t st = Ok st' ->
  bfs_links R s st' ∧ bfs_closed R st' ∧
  (bfs_queue st' = [] ∨ is_Some (bfs_parents st' !! t)).
Proof.
  revert st. induction fuel as [|fuel IH]; intros st Hl Hc; simpl; [done|].
  destruct (bfs_queue st) as [|u q] eqn:Hq.
  - intros [= <-]. split_and!; [done..|by left].
  - case_decide as Ht.
    + intros [= <-]. split_and!; [done..|by right].
    + intros (vs & Hvs & (st1 & Hloop & Hrest)%bind_Ok)%bind_Ok.
      apply (IH st1); [| |done].
      * apply (for_each_invariant (visit R u) (bfs_links R s) vs
                 (mkBfs (bfs_parents st) (bfs_level st) q) st1);
          [|by apply bfs_links_queue|done].
        intros s1 x s2 _ ? ?. by eapply visit_links.
      * apply visit_loop_spec in Hloop as (new & Hq' & Hp' & Hd' & Hnew & Hall).
        simpl in *. intros x [Hx|Hx]%Hd'.
        -- destruct (Hc x Hx) as [Hin|Hex].
           ++ rewrite Hq in Hin. apply elem_of_cons in Hin as [->|Hin].
              ** right. intros v Hv. apply Hall; [|done].
                 by eapply posedge_successor.
              ** left. rewrite Hq'. apply elem_of_app. by left.
           ++ right. intros v Hv. apply Hp'. left. by apply Hex.
        -- left. rewrite Hq'. apply elem_of_app. by right.
Qed.

Lemma level_bfs_run_links R flow s t st :
  level_bfs_run R flow s t = Ok st ->
  bfs_links R s st ∧ bfs_closed R st ∧
  (bfs_queue st = [] ∨ is_Some (bfs_parents st !! t)).
Proof.
  apply bfs_loop_links; [apply bfs_links_init|].
  intros u. unfold disc; cbn [bfs_level bfs_parents bfs_queue].
  intros [k [<- _]%lookup_singleton_Some]. left. apply list_elem_of_here.
Qed.

Lemma level_bfs_Ok_inv R flow s t parents level :
  level_bfs R flow s t = Ok (parents, level) ->
  ∃ st, level_bfs_run R flow s t = Ok st ∧
        parents = bfs_parents st ∧ level = bfs_level st.
Proof.
  unfold level_bfs. intros (st & Hrun & [= <- <-])%bind_Ok. eauto.
Qed.

(** When the queue is empty every node that a walk reaches is discovered,
    with a parent unless the walk is empty. *)
Lemma bfs_closed_reach R s st n v :
  bfs_links R s st -> bfs_closed R st -> bfs_queue st = [] ->
  hop R s n v ->
  disc st v ∧ (n ≠ 0%nat -> is_Some (bfs_parents st !! v)).
Proof.
  intros Hl Hc Hq. induction 1 as [|n u v _ [IHu _] Huv].
  - split; [|done]. apply (lk_dom _ _ _ Hl). by left.
  - destruct (Hc u IHu) as [Hin|Hex].
    + rewrite Hq in Hin. by apply elem_of_nil in Hin.
    + split; [|auto]. apply (lk_dom _ _ _ Hl). right. auto.
Qed.

(** X5.  Every level that [level_bfs] returns is the length of a walk from
    the source over edges of positive capacity; the source has a level. *)
Theorem level_bfs_levels_are_walks R flow s t parents level :
  level_bfs R flow s t = Ok (parents, level) ->
  is_Some (level !! s) ∧
  ∀ v k, level !! v = Some k -> hop R s k v.
Proof.
  intros (st & Hrun & -> & ->)%level_bfs_Ok_inv.
  apply level_bfs_run_links in Hrun as (Hl & _ & _). split.
  - apply (lk_dom _ _ _ Hl). by left.
  - apply (lk_walk _ _ _ Hl).
Qed.

Lemma level_bfs_levels_are_walks_witness :
  ∃ parents level, level_bfs R_fork [] "s" "t" = Ok (parents, level) ∧
    is_Some (level !! "s") ∧
    ∀ v k, level !! v = Some k -> hop R_fork "s" k v.
Proof.
  eexists _, _. split; [vm_compute; reflexivity|].
  eapply (level_bfs_levels_are_walks R_fork [] "s" "t"). vm_compute; reflexivity.
Defined.

(** X6.  [level_bfs] gives the target a parent exactly when a walk of at
    least one edge of positive capacity leads from the source to it. *)
Theorem level_bfs_finds_sink R flow s t parents level :
  level_bfs R flow s t = Ok (parents, level) ->
  is_Some (parents !! t) ↔ ∃ m, hop R s (S m) t.
Proof.
  intros (st & Hrun & -> & ->)%level_bfs_Ok_inv.
  apply level_bfs_run_links in Hrun as (Hl & Hc & Hexit). split.
  - intros Ht. destruct (lk_pos _ _ _ Hl t Ht) as [k Hk].
    exists k. by apply (lk_walk _ _ _ Hl).
  - intros [m Hm]. destruct Hexit as [Hq|Ht]; [|done].
    by apply (bfs_closed_reach R s st _ t Hl Hc Hq Hm).
Qed.

Lemma level_bfs_finds_sink_witness :
  ∃ parents level, level_bfs R_fork [] "s" "t" = Ok (parents, level) ∧
    (is_Some (parents !! "t") ↔ ∃ m, hop R_fork "s" (S m) "t").
Proof.
  eexists _, _. split; [vm_compute; reflexivity|].
  eapply (level_bfs_finds_sink R_fork [] "s" "t"). vm_compute; reflexivity.
Defined.

(** X7.  When no walk of positive capacity leads to the target, the level
    map returned holds exactly the nodes that such walks reach from the
    source, and the target has no parent. *)
Theorem level_bfs_unreachable_sink R flow s t parents level :
  level_bfs R flow s t = Ok (parents, level) ->
  (¬ ∃ m, hop R s (S m) t) ->
  parents !! t = None ∧
  ∀ v, is_Some (level !! v) ↔ ∃ n, hop R s n v.
Proof.
  intros (st & Hrun & -> & ->)%level_bfs_Ok_inv Hno.
  apply level_bfs_run_links in Hrun as (Hl & Hc & Hexit).
  assert (bfs_parents st !! t = None) as Ht.
  { apply eq_None_not_Some. intros Ht. apply Hno.
    destruct (lk_pos _ _ _ Hl t Ht) as [k Hk].
    exists k. by apply (lk_walk _ _ _ Hl). }
  split; [done|]. intros v. split.
  - intros [k Hk]. exists k. by apply (lk_walk _ _ _ Hl).
  - intros [n Hn]. destruct Hexit as [Hq|[? ?]]; [|congruence].
    by apply (bfs_closed_reach R s st n v Hl Hc Hq Hn).
Qed.

Lemma level_bfs_unreachable_sink_witness :
  ∃ parents level, level_bfs R_cut [] "s" "t" = Ok (parents, level) ∧
    parents !! "t" = None ∧
    ∀ v, is_Some (level !! v) ↔ ∃ n, hop R_cut "s" n v.
Proof.
  eexists _, _. split; [vm_compute; reflexivity|].
  eapply (level_bfs_unreachable_sink R_cut [] "s" "t"); [vm_compute; reflexivity|].
  intros [m Hm]. inversion Hm as [|n u v Hu (d & Hd & Hpos)]; subst.
  assert (u = "b") as ->.
  { revert Hd. unfold get_edge, R_cut; simpl.
    repeat case_decide; simplify_eq; done. }
  inversion Hu as [|n' u' v' _ (d' & Hd' & Hpos')]; subst.
  revert Hd' Hpos'. unfold get_edge, R_cut; simpl.
  repeat case_decide; simplify_eq; try done. intros [= <-]. simpl. lia.
Defined.

(** ** [level_bfs]: levels and hop distances *)

Lemma visit_levels_step R s L u st0 st v st' :
  (∀ w, ¬ posedge R w s) ->
  bfs_level st0 !! u = Some L ->
  bfs_links R s st -> visit_levels L st0 st ->
  visit R u st v = Ok st' ->
  visit_levels L st0 st'.
Proof.
  intros Hin Hu Hl (Hold & (nw & Hq & Hnw) & Hnew).
  intros [[-> _]|(Hnone & Hpe & lu & Hlu & ->)]%visit_Ok.
  { split_and!; [done|by exists nw|done]. }
  assert (lu = L) as ->.
  { destruct (Hnew u lu Hlu) as [?|[? _]]; congruence. }
  assert (bfs_level st !! v = None) as Hv.
  { apply eq_None_not_Some. intros Hd. apply (lk_dom _ _ _ Hl) in Hd as [->|Hd].
    - by apply (Hin u).
    - rewrite Hnone in Hd. by destruct Hd. }
  assert (bfs_level st0 !! v = None) as Hv0.
  { destruct (bfs_level st0 !! v) as [k|] eqn:Hk; [|done].
    apply Hold in Hk. congruence. }
  split_and!; simpl.
  - intros x k Hx. rewrite lookup_insert_ne; [auto|]. intros <-. congruence.
  - exists (nw ++ [v]). split; [by rewrite Hq, app_assoc|].
    intros x [Hx| ->%list_elem_of_singleton]%elem_of_app.
    + destruct (Hnw x Hx) as [? Hx']. split; [done|].
      rewrite lookup_insert_ne; [done|]. intros <-. congruence.
    + split; [done|]. apply lookup_insert_eq.
  - intros x k. rewrite lookup_insert_Some. intros [[<- <-]|[_ Hx]]; auto.
Qed.

Lemma bfs_dist_shift R s L B st :
  bfs_dist R s L [] B st -> bfs_dist R s (S L) B [] st.
Proof. intros [HA HB Hmin]. split; [done| |done]. by intros u ?%elem_of_nil. Qed.

Lemma bfs_dist_step R s L u A' B st vs st' B' :
  (∀ w, ¬ posedge R w s) ->
  bfs_inv R s L (u :: A') B st ->
  bfs_links R s st ->
  bfs_dist R s L (u :: A') B st ->
  for_each (visit R u) vs (mkBfs (bfs_parents st) (bfs_level st) (A' ++ B)) = Ok st' ->
  bfs_inv R s L A' B' st' ->
  bfs_dist R s L A' B' st'.
Proof.
  intros Hin Hinv Hl [HA HB Hmin] Hloop Hinv'.
  set (st0 := mkBfs (bfs_parents st) (bfs_level st) (A' ++ B)) in *.
  assert (bfs_level st0 !! u = Some L) as Hu by (apply HA, list_elem_of_here).
  assert (bfs_links R s st' ∧ visit_levels L st0 st')
    as (_ & Hold & (nw & Hq & Hnw) & Hnew).
  { apply (for_each_invariant (visit R u)
             (fun st1 => bfs_links R s st1 ∧ visit_levels L st0 st1) vs st0 st');
      [| |done].
    - intros s1 x s2 _ [? ?] ?. split; [by eapply visit_links|].
      by eapply visit_levels_step.
    - split; [by apply bfs_links_queue|]. split_and!; [done| |auto].
      exists []. split; [by rewrite app_nil_r|]. by intros x ?%elem_of_nil. }
  assert (B' = B ++ nw) as ->.
  { pose proof (inv_queue _ _ _ _ _ _ Hinv') as Hq'. rewrite Hq in Hq'.
    simpl in Hq'. rewrite <- app_assoc in Hq'. by apply app_inv_head in Hq'. }
  split.
  - intros x Hx. apply Hold, HA. by apply list_elem_of_further.
  - intros x [Hx|Hx]%elem_of_app; [by apply Hold, HB|by apply Hnw].
  - intros v k n Hk Hn. destruct (Hnew v k Hk) as [Hk0|[Hk0 ->]]; [by eapply Hmin|].
    destruct (decide (n ≤ L)%nat) as [Hle|]; [|lia].
    destruct (inv_near _ _ _ _ _ _ Hinv n v Hn Hle) as [? ?]. simpl in Hk0. congruence.
Qed.

Lemma bfs_loop_dist R s t fuel st st' L A B :
  wf_graph R -> (∀ w, ¬ posedge R w s) ->
  bfs_inv R s L A B st -> bfs_links R s st -> bfs_dist R s L A B st ->
  bfs_loop fuel R t st = Ok st' ->
  ∃ L' A' B', bfs_dist R s L' A' B' st'.
Proof.
  intros Hwf Hin. revert st L A B.
  induction fuel as [|fuel IH]; intros st L A B Hinv Hl Hd; simpl; [done|].
  destruct (bfs_queue st) as [|u q] eqn:Hq; [intros [= <-]; eauto|].
  case_decide as Ht; [intros [= <-]; eauto|].
  intros (vs & Hvs & (st1 & Hloop & Hrest)%bind_Ok)%bind_Ok.
  assert (bfs_links R s st1) as Hl1.
  { apply (for_each_invariant (visit R u) (bfs_links R s) vs
             (mkBfs (bfs_parents st) (bfs_level st) q) st1);
      [|by apply bfs_links_queue|done].
    intros s1 x s2 _ ? ?. by eapply visit_links. }
  pose proof (inv_queue _ _ _ _ _ _ Hinv) as HAB. rewrite Hq in HAB.
  destruct A as [|a A'].
  - simpl in HAB. subst B. apply bfs_inv_shift in Hinv. apply bfs_dist_shift in Hd.
    destruct (bfs_inv_step R s (S L) u q [] st vs st1) as [B' Hinv1];
      [done..|by rewrite app_nil_r|].
    apply (IH st1 (S L) q B'); [done|done| |done].
    eapply bfs_dist_step; [done..|by rewrite app_nil_r|done].
  - simpl in HAB. injection HAB as <- ->.
    destruct (bfs_inv_step R s L u A' B st vs st1) as [B' Hinv1]; [done..|].
    apply (IH st1 L A' B'); [done|done| |done].
    by eapply bfs_dist_step.
Qed.

(** X8.  On a well-formed graph in which no edge of positive capacity enters
    the source, every level returned by [level_bfs] is the hop distance of
    its node: a walk of that many positive edges leads to the node from the
    source and no walk is shorter; in particular the source keeps level 0. *)
Theorem level_bfs_levels_are_distances R flow s t parents level :
  wf_graph R ->
  (∀ w, ¬ posedge R w s) ->
  level_bfs R flow s t = Ok (parents, level) ->
  level !! s = Some 0%nat ∧
  ∀ v k, level !! v = Some k ->
         hop R s k v ∧ ∀ n, hop R s n v -> (k ≤ n)%nat.
Proof.
  intros Hwf Hin (st & Hrun & -> & ->)%level_bfs_Ok_inv.
  pose proof (level_bfs_run_source _ _ _ _ _ Hrun) as Hs.
  pose proof (level_bfs_run_links _ _ _ _ _ Hrun) as (Hl & _ & _).
  destruct (bfs_loop_dist R s t (2 + length (edges R))
              (mkBfs ∅ {[s := 0%nat]} [s]) st 0 [s] [] Hwf Hin
              (bfs_inv_init R s Hs) (bfs_links_init R s))
    as (L & A & B & [_ _ Hmin]); [|exact Hrun|].
  { split; cbn [bfs_level].
    - intros u ->%list_elem_of_singleton. apply lookup_singleton_eq.
    - by intros u ?%elem_of_nil.
    - intros v k n [<- <-]%lookup_singleton_Some _. lia. }
  assert (∀ v k, bfs_level st !! v = Some k ->
                 hop R s k v ∧ ∀ n, hop R s n v -> (k ≤ n)%nat) as Hall.
  { intros v k Hk. split; [by apply (lk_walk _ _ _ Hl)|]. intros n. by apply Hmin. }
  split; [|done].
  destruct (proj2 (lk_dom _ _ _ Hl s) (or_introl eq_refl)) as [k Hk].
  destruct (Hall s k Hk) as [_ Hle]. specialize (Hle 0%nat (hop_O R s)).
  rewrite Hk. f_equal. lia.
Qed.

Lemma level_bfs_levels_are_distances_witness :
  ∃ parents level, level_bfs R_fork [] "s" "t" = Ok (parents, level) ∧
    level !! "s" = Some 0%nat ∧
    ∀ v k, level !! v = Some k ->
           hop R_fork "s" k v ∧ ∀ n, hop R_fork "s" n v -> (k ≤ n)%nat.
Proof.
  eexists _, _. split; [vm_compute; reflexivity|].
  eapply (level_bfs_levels_are_distances R_fork [] "s" "t");
    [by_computation| |vm_compute; reflexivity].
  intros w (d & Hd & _). revert Hd. unfold get_edge, R_fork; simpl.
  repeat (case_decide; [simplify_eq|]). done.
Defined.

(** ** [aug_path_dfs]: the path and the amount returned *)

Lemma pairwise_cons {A : Type} (x y : A) l :
  pairwise (x :: y :: l) = (x, y) :: pairwise (y :: l).
Proof. done. Qed.

Lemma edge_capacity_Ok R u v c :
  edge_capacity R u v = Ok c -> is_Some (get_edge R u v) ∧ cap0 R u v = c.
Proof.
  unfold edge_capacity, cap0. destruct (get_edge R u v); [|done].
  intros [= <-]. split; [by eexists|done].
Qed.

(** The loop appends to [path] the nodes from [u] to the source along the
    parents, and lowers [f] to the minimum of [f] and of the terms
    [R.pred[x][y]["capacity"] - flow.get((x, y), 0)] of the links. *)
Lemma aug_loop_spec R parents flow s fuel u path f path' f' :
  aug_loop fuel R parents flow s u path f = Ok (path', f') ->
  ∃ tl, path' = path ++ tl ∧ head tl = Some u ∧ last tl = Some s ∧
    (∀ x y, (x, y) ∈ pairwise tl ->
       x ≠ s ∧ parents !! x = Some y ∧ is_Some (get_edge R y x) ∧
       f' ≤ cap0 R y x - flow_get flow x y) ∧
    f' ≤ f ∧
    (f' = f ∨ ∃ x y, (x, y) ∈ pairwise tl ∧ f' = cap0 R y x - flow_get flow x y).
Proof.
  revert u path f. induction fuel as [|fuel IH]; intros u path f; simpl; [done|].
  case_decide as Hu.
  - intros [= <- <-]. subst u. exists [s]. split_and!; try done; [|by left].
    by intros x y ?%elem_of_nil.
  - destruct (parents !! u) as [v|] eqn:Hp; [|done].
    intros (c & [Hedge Hc]%edge_capacity_Ok & Hrec)%bind_Ok.
    apply IH in Hrec as (tl & -> & Hhd & Hlast & Hlinks & Hle & Hmin).
    destruct tl as [|w tl]; [done|]. injection Hhd as ->.
    exists (u :: v :: tl). split_and!.
    + by rewrite <- app_assoc.
    + done.
    + done.
    + intros x y. rewrite pairwise_cons. intros [[= -> ->]|Hxy]%elem_of_cons; [|auto].
      split_and!; [done..|]. rewrite Hc. lia.
    + lia.
    + destruct Hmin as [->|(x & y & Hxy & ->)].
      * destruct (Z.min_spec f (c - flow_get flow u v)) as [[_ ->]|[_ ->]]; [by left|].
        right. exists u, v. rewrite pairwise_cons, Hc.
        split; [apply list_elem_of_here|done].
      * right. exists x, y. rewrite pairwise_cons.
        split; [by apply list_elem_of_further|done].
Qed.


(** X9.  What [aug_path_dfs] returns: a path that starts at the target, ends
    at the source and follows the parents, and an amount that is the minimum
    of the seed [3 * max(flow.values())] and of the terms
    [R.pred[u][v]["capacity"] - flow.get((u, v), 0)] of its links. *)
Theorem aug_path_dfs_result fuel R parents flow s t path f :
  aug_path_dfs fuel R parents flow s t = Ok (path, f) ->
  ∃ m, max_values flow = Ok m ∧
    head path = Some t ∧ last path = Some s ∧
    (∀ u v, (u, v) ∈ pairwise path ->
       parents !! u = Some v ∧ f ≤ cap0 R v u - flow_get flow u v) ∧
    f ≤ 3 * m ∧
    (f = 3 * m ∨
     ∃ u v, (u, v) ∈ pairwise path ∧ f = cap0 R v u - flow_get flow u v).
Proof.
  unfold aug_path_dfs. intros (m & Hm & Hloop)%bind_Ok. exists m.
  apply aug_loop_spec in Hloop as (tl & -> & Hhd & Hlast & Hlinks & Hle & Hmin).
  simpl. split_and!; [done..| |done|done].
  intros u v Huv. destruct (Hlinks u v Huv) as (_ & ? & _ & ?). done.
Qed.

Lemma aug_path_dfs_result_witness :
  ∃ m, max_values flow_one = Ok m ∧
    head ["t"; "s"] = Some "t" ∧ last ["t"; "s"] = Some "s" ∧
    (∀ u v, (u, v) ∈ pairwise ["t"; "s"] ->
       parents_one !! u = Some v ∧ 3 ≤ cap0 R_one v u - flow_get flow_one u v) ∧
    3 ≤ 3 * m ∧
    (3 = 3 * m ∨
     ∃ u v, (u, v) ∈ pairwise ["t"; "s"] ∧
            3 = cap0 R_one v u - flow_get flow_one u v).
Proof.
  apply (aug_path_dfs_result 2 R_one parents_one flow_one "s" "t"). reflexivity.
Defined.

(** X10.  When the flow has no item under the reversed key of a link of the
    returned path and the seed is not below the capacity of every link, the
    amount returned is the bottleneck of the path: the smallest capacity in
    [R] of its links. *)
Theorem aug_path_dfs_bottleneck fuel R parents flow s t path f m :
  aug_path_dfs fuel R parents flow s t = Ok (path, f) ->
  max_values flow = Ok m ->
  (∀ u v, (u, v) ∈ pairwise path -> flow_get flow u v = 0) ->
  (∃ u v, (u, v) ∈ pairwise path ∧ cap0 R v u ≤ 3 * m) ->
  (∀ u v, (u, v) ∈ pairwise path -> f ≤ cap0 R v u) ∧
  (∃ u v, (u, v) ∈ pairwise path ∧ f = cap0 R v u).
Proof.
  unfold aug_path_dfs. intros (m' & Hm' & Hloop)%bind_Ok Hm Hzero (u0 & v0 & Huv0 & Hseed).
  assert (m' = m) as -> by congruence.
  apply aug_loop_spec in Hloop as (tl & -> & Hhd & Hlast & Hlinks & Hle & Hmin).
  simpl in *.
  assert (∀ u v, (u, v) ∈ pairwise tl -> f ≤ cap0 R v u) as Hall.
  { intros u v Huv. destruct (Hlinks u v Huv) as (_ & _ & _ & Hf).
    rewrite (Hzero u v Huv) in Hf. lia. }
  split; [done|]. destruct Hmin as [->|(u & v & Huv & ->)].
  - exists u0, v0. split; [done|]. specialize (Hall u0 v0 Huv0). lia.
  - exists u, v. split; [done|]. rewrite (Hzero u v Huv). lia.
Qed.

Lemma aug_path_dfs_bottleneck_witness :
  (∀ u v, (u, v) ∈ pairwise ["t"; "s"] -> 9 ≤ cap0 R_one v u) ∧
  (∃ u v, (u, v) ∈ pairwise ["t"; "s"] ∧ 9 = cap0 R_one v u).
Proof.
  apply (aug_path_dfs_bottleneck 2 R_one parents_one [("s", "t", 4)] "s" "t" _ _ 4);
    [reflexivity|reflexivity| |].
  - intros u v [[= -> ->]|?%elem_of_nil]%elem_of_cons; done.
  - exists "t", "s". split; [apply list_elem_of_here|]. vm_compute. done.
Defined.

(** ** From [level_bfs] to [aug_path_dfs] *)



(** ** The augmentation along the path *)



Lemma dict_set_keys d k x :
  (dict_set d k x).*1 = if decide (k ∈ d.*1) then d.*1 else d.*1 ++ [k].
Proof.
  induction d as [|[k1 y1] d IH]; [done|].
  cbn [dict_set]. destruct (decide (k1 = k)) as [->|Hne]; rewrite !fmap_cons; cbn [fst].
  - rewrite decide_True; [done|]. apply list_elem_of_here.
  - rewrite IH. destruct (decide (k ∈ d.*1)) as [Hin|Hno].
    + rewrite decide_True; [done|]. by apply list_elem_of_further.
    + rewrite decide_False; [done|]. by intros [?|?]%elem_of_cons.
Qed.

Lemma dict_set_keys_ok d k x : dict_keys_ok d -> dict_keys_ok (dict_set d k x).
Proof.
  unfold dict_keys_ok. rewrite dict_set_keys. case_decide; [done|].
  intros Hnd. apply NoDup_app. split_and!; [done| |apply NoDup_singleton].
  by intros k' Hk' ->%list_elem_of_singleton.
Qed.





(** ** [draw_residual_graph]: the three kinds of edges *)

Lemma lookup_edge_elem es u v d :
  NoDup (edge_key <$> es) -> (u, v, d) ∈ es -> lookup_edge es u v = Some d.
Proof.
  induction es as [|[k d'] es IH]; simpl.
  - by intros _ ?%elem_of_nil.
  - intros [Hk Hnd]%NoDup_cons [[= <- <-]|Hin]%elem_of_cons.
    + by rewrite decide_True.
    + rewrite decide_False; [auto|]. intros ->. apply Hk.
      apply list_elem_of_fmap. by exists (u, v, d).
Qed.

(** On a well-formed graph the iteration over the edges meets exactly the
    edges that the lookups find. *)
Lemma edges_iter_elem R u v d :
  wf_graph R -> (u, v, d) ∈ edges_iter R ↔ get_edge R u v = Some d.
Proof.
  intros (Hn & Hk & Hends). unfold edges_iter, get_edge.
  rewrite list_elem_of_bind. split.
  - intros (n & [_ Hin]%list_elem_of_filter & _). by apply lookup_edge_elem.
  - intros Hin%lookup_edge_Some. exists u. split.
    + by apply list_elem_of_filter.
    + rewrite Forall_forall in Hends. by destruct (Hends _ Hin).
Qed.

Lemma classify_foldl l c0 a b :
  let c := foldl classify_step c0 l in
  ((a, b) ∈ rev_edges c ↔
     (a, b) ∈ rev_edges c0 ∨ ∃ d, (a, b, d) ∈ l ∧ etype_rev d = true) ∧
  ((a, b) ∈ zero_edges c ↔
     (a, b) ∈ zero_edges c0 ∨
     ∃ d, (a, b, d) ∈ l ∧ etype_rev d = false ∧ capacity d = 0) ∧
  ((a, b) ∈ orig_edges c ↔
     (a, b) ∈ orig_edges c0 ∨
     ∃ d, (a, b, d) ∈ l ∧ etype_rev d = false ∧ capacity d ≠ 0).
Proof.
  revert c0. induction l as [|[k d] l IH]; intros c0; cbn [foldl].
  - split_and!; (split; [auto|intros [?|(? & ?%elem_of_nil & _)]; done]).
  - destruct (IH (classify_step c0 (k, d))) as (Hr & Hz & Ho).
    rewrite Hr, Hz, Ho. clear IH Hr Hz Ho.
    assert (∀ P : EdgeData -> Prop,
      (∃ d', (a, b, d') ∈ (k, d) :: l ∧ P d') ↔
      (k = (a, b) ∧ P d) ∨ ∃ d', (a, b, d') ∈ l ∧ P d') as Hex.
    { intros P. split.
      - intros (d' & [[= <- <-]|Hin]%elem_of_cons & HP); [by left|].
        right. by exists d'.
      - intros [[-> HP]|(d' & Hin & HP)].
        + exists d. split; [apply list_elem_of_here|done].
        + exists d'. split; [by apply list_elem_of_further|done]. }
    rewrite (Hex (fun d => etype_rev d = true)),
            (Hex (fun d => etype_rev d = false ∧ capacity d = 0)),
            (Hex (fun d => etype_rev d = false ∧ capacity d ≠ 0)).
    unfold classify_step; cbn [fst snd].
    destruct (etype_rev d) eqn:Hty; [|case_decide as Hc]; cbn [rev_edges zero_edges orig_edges];
      rewrite ?elem_of_app, ?list_elem_of_singleton;
      (split_and!; split; intros Hcase; intuition (try congruence)).
Qed.

(** X13.  In the residual graph of a well-formed graph [G] that has no
    [etype="rev"] edge, [draw_residual_graph] sorts an edge into [rev_edges]
    exactly when [G] does not have it, into [zero_edges] exactly when it is
    an edge of [G] left with capacity 0 and into [orig_edges] exactly when
    it is an edge of [G] left with another capacity. *)
Theorem classify_residual_edges G flow R a b :
  wf_graph G -> no_rev_edges G ->
  residual_graph G flow = Ok R ->
  ((a, b) ∈ rev_edges (classify_edges R) ↔
     is_Some (get_edge R a b) ∧ get_edge G a b = None) ∧
  ((a, b) ∈ zero_edges (classify_edges R) ↔
     is_Some (get_edge G a b) ∧ cap0 R a b = 0) ∧
  ((a, b) ∈ orig_edges (classify_edges R) ↔
     is_Some (get_edge G a b) ∧ cap0 R a b ≠ 0).
Proof.
  intros Hwf Hnorev HR.
  pose proof (residual_graph_wf _ _ _ Hwf HR) as HwfR.
  assert (residual_shape G flow R) as (_ & Hsub & _ & Hty).
  { apply (for_each_invariant (residual_step G) (residual_shape G flow) flow (copy G) R);
      [|split_and!|done].
    - intros H1 e H2 Hin Hs Hstep. by eapply residual_step_shape.
    - done.
    - auto.
    - exists []. by rewrite app_nil_r.
    - intros a' b' d Hd. left. by exists d. }
  assert (∀ d, get_edge R a b = Some d ->
               (etype_rev d = true ↔ get_edge G a b = None)) as Hrev.
  { intros d Hd. destruct (Hty a b d Hd) as [(d0 & Hd0 & He)|(Hn & He & _)].
    - rewrite He, Hd0. split; [|done]. intros Ht.
      apply lookup_edge_Some in Hd0. unfold no_rev_edges in Hnorev.
      rewrite Forall_forall in Hnorev. specialize (Hnorev _ Hd0). simpl in *. congruence.
    - by rewrite He, Hn. }
  destruct (classify_foldl (edges_iter R) (mkClasses [] [] []) a b) as (Hr & Hz & Ho).
  fold (classify_edges R) in Hr, Hz, Ho. cbn [rev_edges zero_edges orig_edges] in *.
  rewrite Hr, Hz, Ho. clear Hr Hz Ho.
  split_and!; split.
  - intros [?%elem_of_nil|(d & Hd%edges_iter_elem & Ht)]; [done| |done].
    split; [by eexists|]. by apply (Hrev d).
  - intros [[d Hd] Hn]. right. exists d. split; [by apply edges_iter_elem|].
    by apply (Hrev d).
  - intros [?%elem_of_nil|(d & Hd%edges_iter_elem & Ht & Hc)]; [done| |done].
    split.
    + destruct (get_edge G a b) eqn:HG; [by eexists|].
      assert (etype_rev d = true) by (by apply (Hrev d Hd)). congruence.
    + unfold cap0. by rewrite Hd.
  - intros [HG Hc]. right. destruct (Hsub a b HG) as [d Hd].
    exists d. split; [by apply edges_iter_elem|]. split.
    + destruct (etype_rev d) eqn:Ht; [|done]. apply (Hrev d Hd) in Ht.
      destruct HG as [? HG]. congruence.
    + unfold cap0 in Hc. by rewrite Hd in Hc.
  - intros [?%elem_of_nil|(d & Hd%edges_iter_elem & Ht & Hc)]; [done| |done].
    split.
    + destruct (get_edge G a b) eqn:HG; [by eexists|].
      assert (etype_rev d = true) by (by apply (Hrev d Hd)). congruence.
    + unfold cap0. by rewrite Hd.
  - intros [HG Hc]. right. destruct (Hsub a b HG) as [d Hd].
    exists d. split; [by apply edges_iter_elem|]. split.
    + destruct (etype_rev d) eqn:Ht; [|done]. apply (Hrev d Hd) in Ht.
      destruct HG as [? HG]. congruence.
    + unfold cap0 in Hc. by rewrite Hd in Hc.
Qed.

Lemma classify_residual_edges_witness :
  ((("t", "s") ∈ rev_edges (classify_edges R_one)) ↔
     is_Some (get_edge R_one "t" "s") ∧ get_edge G_one "t" "s" = None) ∧
  ((("t", "s") ∈ zero_edges (classify_edges R_one)) ↔
     is_Some (get_edge G_one "t" "s") ∧ cap0 R_one "t" "s" = 0) ∧
  ((("t", "s") ∈ orig_edges (classify_edges R_one)) ↔
     is_Some (get_edge G_one "t" "s") ∧ cap0 R_one "t" "s" ≠ 0).
Proof.
  apply (classify_residual_edges G_one flow_one R_one);
    [by_computation|by_computation|reflexivity].
Defined.

(** ** [draw_level_network]: colours and labels *)

Lemma level_colors_lookup l : is_Some (level_colors !! l) ↔ (1 ≤ l ≤ 6)%nat.
Proof.
  destruct (decide (1 ≤ l ≤ 6)%nat) as [Hl|Hl]; split; try done.
  - intros _.
    do 7 (destruct l as [|l]; [try lia; eexists; vm_compute; reflexivity|]). lia.
  - intros [c Hc]. exfalso. destruct l as [|l]; [by vm_compute in Hc|].
    do 6 (destruct l as [|l]; [lia|]). revert Hc.
    unfold level_colors. cbn [list_to_map foldr fst snd].
    rewrite !lookup_insert_ne by done. by rewrite lookup_empty.
Qed.

Lemma level_nc_cases ls :
  (Forall (fun l => (1 ≤ l ≤ 6)%nat) ls ∧ ∃ cs, level_nc ls = Ok cs) ∨
  (Exists (fun l => ¬ (1 ≤ l ≤ 6)%nat) ls ∧ level_nc ls = Raise KeyError).
Proof.
  induction ls as [|l ls IH]; simpl; [left; eauto|].
  destruct (level_colors !! l) as [c|] eqn:Hc.
  - assert (1 ≤ l ≤ 6)%nat as Hl by (apply level_colors_lookup; by eexists).
    destruct IH as [[Hall [cs ->]]|[Hex ->]]; simpl.
    + left. split; [by constructor|eauto].
    + right. split; [by apply Exists_cons_tl|done].
  - right. split; [|done]. apply Exists_cons_hd.
    intros Hl%level_colors_lookup. rewrite Hc in Hl. by destruct Hl.
Qed.

Lemma level_nc_result ls :
  level_nc ls = Raise KeyError ↔ ∃ l, l ∈ ls ∧ ¬ (1 ≤ l ≤ 6)%nat.
Proof.
  destruct (level_nc_cases ls) as [[Hall [cs Hcs]]|[Hex Hr]]; split.
  - congruence.
  - intros (l & Hin & Hno). rewrite Forall_forall in Hall. destruct (Hno (Hall l Hin)).
  - intros _. by apply Exists_exists in Hex.
  - done.
Qed.

(** X14.  The colour lookup of [draw_level_network] raises a [KeyError]
    exactly when some level is outside 1..6.  It does so on the levels
    returned by [level_bfs] whenever no edge of positive capacity enters the
    source, because the source then has level 0. *)
Theorem level_nc_source_level R flow s t parents level vals :
  level_bfs R flow s t = Ok (parents, level) ->
  (∀ w, ¬ posedge R w s) ->
  (∀ v k, level !! v = Some k -> k ∈ vals) ->
  level_nc vals = Raise KeyError ∧
  ∀ ls, level_nc ls = Raise KeyError ↔ ∃ l, l ∈ ls ∧ ¬ (1 ≤ l ≤ 6)%nat.
Proof.
  intros (st & Hrun & -> & ->)%level_bfs_Ok_inv Hin Hvals.
  split; [|intros ls; apply level_nc_result].
  apply level_nc_result. exists 0%nat. split; [|lia].
  apply (Hvals s).
  pose proof (level_bfs_run_links _ _ _ _ _ Hrun) as (Hl & _ & _).
  apply (lk_source _ _ _ Hl).
  destruct (bfs_parents st !! s) as [u|] eqn:Hp; [|done].
  apply (level_bfs_run_parents_pos _ _ _ _ _ Hrun) in Hp. by destruct (Hin u).
Qed.

Lemma level_nc_source_level_witness :
  level_nc [0%nat; 1%nat; 1%nat; 2%nat] = Raise KeyError ∧
  ∀ ls, level_nc ls = Raise KeyError ↔ ∃ l, l ∈ ls ∧ ¬ (1 ≤ l ≤ 6)%nat.
Proof.
  eapply (level_nc_source_level R_fork [] "s" "t" _ level_fork).
  - vm_compute; reflexivity.
  - intros w (d & Hd & _). revert Hd. unfold get_edge, R_fork; simpl.
    repeat (case_decide; [simplify_eq|]). done.
  - change (map_Forall (fun (_ : node) (k : nat) => k ∈ [0; 1; 1; 2]%nat)
                       level_fork).
    by_computation.
Defined.

Lemma dict_set_elem_iff d k x k' y :
  dict_keys_ok d ->
  (k', y) ∈ dict_set d k x ↔ (k' = k ∧ y = x) ∨ (k' ≠ k ∧ (k', y) ∈ d).
Proof.
  unfold dict_keys_ok. induction d as [|[k1 y1] d IH]; simpl.
  - intros _. rewrite list_elem_of_singleton, elem_of_nil. split.
    + intros [= -> ->]. by left.
    + intros [[-> ->]|[_ []]]. done.
  - intros [Hk1 Hnd]%NoDup_cons. simpl in Hk1.
    case_decide as Hk; rewrite !elem_of_cons.
    + subst k1. split.
      * intros [[= -> ->]|Hin]; [by left|]. right. split; [|by right].
        intros ->. apply Hk1. apply list_elem_of_fmap. by exists (k, y).
      * intros [[-> ->]|[Hne [[= ? ?]|Hin]]]; [by left|done|by right].
    + rewrite (IH Hnd). split.
      * intros [[= -> ->]|[?|[? ?]]]; [right; split; [done|by left]|by left|].
        right. split; [done|by right].
      * intros [?|[Hne [[= -> ->]|Hin]]]; [right; by left|by left|].
        right. right. by split.
Qed.

(** The dictionary of labels holds, for the keys it had and for the edges of
    the list, the capacity in [R]. *)
Lemma edge_labels_from_spec R labels es (P : node -> node -> Prop) :
  (∀ u v, (u, v) ∈ es -> is_Some (get_edge R u v)) ->
  dict_keys_ok labels ->
  (∀ a b c, (a, b, c) ∈ labels ↔ P a b ∧ cap0 R a b = c) ->
  ∃ ls, edge_labels_from R labels es = Ok ls ∧ dict_keys_ok ls ∧
    ∀ a b c, (a, b, c) ∈ ls ↔ (P a b ∨ (a, b) ∈ es) ∧ cap0 R a b = c.
Proof.
  revert labels P. induction es as [|[u v] es IH]; intros labels P Hedges Hk Hl; simpl.
  - exists labels. split_and!; [done..|]. intros a b c. rewrite Hl, elem_of_nil.
    intuition.
  - destruct (Hedges u v) as [d Hd]; [apply list_elem_of_here|].
    unfold edge_capacity. rewrite Hd; simpl.
    destruct (IH (dict_set labels (u, v) (capacity d))
                 (fun a b => P a b ∨ (a, b) = (u, v))) as (ls & -> & Hk' & He).
    { intros; apply Hedges. by apply list_elem_of_further. }
    { by apply dict_set_keys_ok. }
    { intros a b c. rewrite dict_set_elem_iff by done. rewrite Hl.
      assert (cap0 R u v = capacity d) as Hc by (unfold cap0; by rewrite Hd).
      destruct (decide ((a, b) = (u, v))) as [[= -> ->]|Hne].
      - rewrite Hc. intuition.
      - intuition. }
    exists ls. split_and!; [done..|].
    intros a b c. rewrite He, elem_of_cons. intuition.
Qed.

(** X15.  The labels of [draw_level_network]: for the parents returned by
    [level_bfs] on [R], both label dictionaries are built without a
    [KeyError].  The one over [fwd_edges] has exactly the links
    [parents[b] = a] that are edges of [G], the one over [rev_edges] exactly
    the links that are not, each link once and labelled with its capacity in
    [R]; every label is positive. *)
Theorem level_network_labels R G flow s t parents level items :
  level_bfs R flow s t = Ok (parents, level) ->
  (∀ u v, (u, v) ∈ items ↔ parents !! u = Some v) ->
  ∃ lf lr,
    edge_labels R (level_fwd_edges G items) = Ok lf ∧
    edge_labels R (level_rev_edges G items) = Ok lr ∧
    dict_keys_ok lf ∧ dict_keys_ok lr ∧
    (∀ a b c, (a, b, c) ∈ lf ↔
       parents !! b = Some a ∧ is_Some (get_edge G a b) ∧ cap0 R a b = c) ∧
    (∀ a b c, (a, b, c) ∈ lr ↔
       parents !! b = Some a ∧ get_edge G a b = None ∧ cap0 R a b = c) ∧
    (∀ a b c, (a, b, c) ∈ lf ∨ (a, b, c) ∈ lr -> 0 < c).
Proof.
  intros (st & Hrun & -> & ->)%level_bfs_Ok_inv Hitems.
  pose proof (level_bfs_run_parents_pos _ _ _ _ _ Hrun) as Hpos.
  assert (∀ a b, (a, b) ∈ level_fwd_edges G items ↔
            bfs_parents st !! b = Some a ∧ is_Some (get_edge G a b)) as Hf.
  { intros a b. unfold level_fwd_edges. rewrite list_elem_of_fmap. split.
    - intros ([u v] & [= -> ->] & [Hh Hin]%list_elem_of_filter). simpl in *.
      split; [by apply Hitems|]. unfold has_edge in Hh. by apply bool_decide_unpack in Hh.
    - intros [Hp HG]. exists (b, a). split; [done|]. apply list_elem_of_filter.
      split; [|by apply Hitems]. simpl. unfold has_edge.
      apply Is_true_true. by apply bool_decide_eq_true. }
  assert (∀ a b, (a, b) ∈ level_rev_edges G items ↔
            bfs_parents st !! b = Some a ∧ get_edge G a b = None) as Hr.
  { intros a b. unfold level_rev_edges. rewrite list_elem_of_fmap. split.
    - intros ([u v] & [= -> ->] & [Hh Hin]%list_elem_of_filter). simpl in *.
      split; [by apply Hitems|]. apply eq_None_not_Some. intros Hs. apply Hh.
      unfold has_edge. by apply bool_decide_pack.
    - intros [Hp HG]. exists (b, a). split; [done|]. apply list_elem_of_filter.
      split; [|by apply Hitems]. simpl. unfold has_edge.
      intros Hh%bool_decide_unpack. destruct Hh. congruence. }
  destruct (edge_labels_from_spec R [] (level_fwd_edges G items) (fun _ _ => False))
    as (lf & Hlf & Hkf & Helf).
  { intros a b [Hp _]%Hf. destruct (Hpos _ _ Hp) as (d & -> & _). by eexists. }
  { apply NoDup_nil_2. }
  { intros a b c. rewrite elem_of_nil. intuition. }
  destruct (edge_labels_from_spec R [] (level_rev_edges G items) (fun _ _ => False))
    as (lr & Hlr & Hkr & Helr).
  { intros a b [Hp _]%Hr. destruct (Hpos _ _ Hp) as (d & -> & _). by eexists. }
  { apply NoDup_nil_2. }
  { intros a b c. rewrite elem_of_nil. intuition. }
  exists lf, lr. split_and!; [done..| | |].
  - intros a b c. rewrite Helf, Hf. intuition.
  - intros a b c. rewrite Helr, Hr. intuition.
  - intros a b c Hin.
    assert (bfs_parents st !! b = Some a ∧ cap0 R a b = c) as [Hp Hc].
    { destruct Hin as [Hin|Hin].
      - apply Helf in Hin as [[[]|Hin] ?]. apply Hf in Hin as [? _]. done.
      - apply Helr in Hin as [[[]|Hin] ?]. apply Hr in Hin as [? _]. done. }
    destruct (Hpos _ _ Hp) as (d & Hd & Hd0). unfold cap0 in Hc. rewrite Hd in Hc. lia.
Qed.

Lemma level_network_labels_witness :
  ∃ lf lr,
    edge_labels R_one (level_fwd_edges G_one [("t", "s")]) = Ok lf ∧
    edge_labels R_one (level_rev_edges G_one [("t", "s")]) = Ok lr ∧
    dict_keys_ok lf ∧ dict_keys_ok lr ∧
    (∀ a b c, (a, b, c) ∈ lf ↔
       parents_one !! b = Some a ∧ is_Some (get_edge G_one a b) ∧ cap0 R_one a b = c) ∧
    (∀ a b c, (a, b, c) ∈ lr ↔
       parents_one !! b = Some a ∧ get_edge G_one a b = None ∧ cap0 R_one a b = c) ∧
    (∀ a b c, (a, b, c) ∈ lf ∨ (a, b, c) ∈ lr -> 0 < c).
Proof.
  eapply (level_network_labels R_one G_one flow_one "s" "t" parents_one).
  - vm_compute; reflexivity.
  - intros u v. rewrite list_elem_of_singleton. unfold parents_one.
    rewrite lookup_singleton_Some. split; [by intros [= -> ->]|by intros [-> ->]].
Defined.

(** ** [check_valid_flow]: the graph that is returned *)

Lemma check_step_marks G flow s t H e H' :
  check_step G flow s t H e = Ok H' ->
  fg_edges H' = fg_edges H ∧
  fg_labels H' = fg_labels H ++ [(e.1, (e.2, cap0 G e.1.1 e.1.2))] ∧
  ((∀ u v, (u, v) ∈ fg_red_edges H ↔ CapacityViolated u v ∈ printed H) ->
   (∀ u v, (u, v) ∈ fg_red_edges H' ↔ CapacityViolated u v ∈ printed H')) ∧
  ((∀ v, v ∈ fg_red_nodes H ↔ ConservationViolated v ∈ printed H) ->
   (∀ v, v ∈ fg_red_nodes H' ↔ ConservationViolated v ∈ printed H')).
Proof.
  destruct e as [[u v] f]. unfold check_step, edge_capacity, cap0. simpl.
  destruct (get_edge G u v) as [d|]; simpl; [|done].
  destruct (format_label_cases f (capacity d)) as [(_ & _ & ->)|[_ ->]]; simpl; [|done].
  destruct (decide (f > capacity d)); destruct (decide (v ≠ s ∧ v ≠ t)); simpl.
  all: try (destruct (incoming_flow G flow v) as [i| |]; simpl; [|done..];
            destruct (outgoing_flow G flow v) as [o| |]; simpl; [|done..];
            destruct (isclose i o) as [[|]| |]; simpl; [| |done..]).
  all: intros [= <-]; simpl; (split_and!; [done|done|intros Hr x y|intros Hn x]).
  all: rewrite ?elem_of_app, ?list_elem_of_singleton, ?Hr, ?Hn.
  all: intuition (simplify_eq; auto).
Qed.

Lemma check_loop_marks G flow s t items H H' :
  for_each (check_step G flow s t) items H = Ok H' ->
  fg_edges H' = fg_edges H ∧
  fg_labels H' =
    fg_labels H ++ ((fun e => (e.1, (e.2, cap0 G e.1.1 e.1.2))) <$> items) ∧
  ((∀ u v, (u, v) ∈ fg_red_edges H ↔ CapacityViolated u v ∈ printed H) ->
   (∀ u v, (u, v) ∈ fg_red_edges H' ↔ CapacityViolated u v ∈ printed H')) ∧
  ((∀ v, v ∈ fg_red_nodes H ↔ ConservationViolated v ∈ printed H) ->
   (∀ v, v ∈ fg_red_nodes H' ↔ ConservationViolated v ∈ printed H')).
Proof.
  revert H. induction items as [|e items IH]; intros H; simpl.
  - intros [= <-]. by rewrite app_nil_r.
  - intros (H1 & Hstep & Hloop)%bind_Ok.
    apply check_step_marks in Hstep as (He1 & Hl1 & Hr1 & Hn1).
    destruct (IH _ Hloop) as (He & Hl & Hr & Hn).
    split_and!; [congruence| |auto..].
    by rewrite Hl, Hl1, <- app_assoc.
Qed.

(** X16.  The graph that [check_valid_flow] returns has the keys of the flow
    as edges, labels every one of them with its flow and its capacity in
    [G], colours red exactly the edges whose capacity violation it printed
    and exactly the nodes whose conservation violation it printed. *)
Theorem check_valid_flow_graph G flow s t H :
  check_valid_flow G flow s t = Ok H ->
  fg_edges H = flow.*1 ∧
  fg_labels H = (fun e => (e.1, (e.2, cap0 G e.1.1 e.1.2))) <$> flow ∧
  (∀ u v, (u, v) ∈ fg_red_edges H ↔ CapacityViolated u v ∈ printed H) ∧
  (∀ v, v ∈ fg_red_nodes H ↔ ConservationViolated v ∈ printed H).
Proof.
  intros (He & Hl & Hr & Hn)%check_loop_marks. simpl in *.
  split_and!; [done..| |].
  - apply Hr. intros u v. by rewrite !elem_of_nil.
  - apply Hn. intros v. by rewrite !elem_of_nil.
Qed.

Lemma check_valid_flow_graph_witness :
  ∃ H, check_valid_flow G_path flow_over "s" "t" = Ok H ∧
    fg_edges H = flow_over.*1 ∧
    fg_labels H = (fun e => (e.1, (e.2, cap0 G_path e.1.1 e.1.2))) <$> flow_over ∧
    (∀ u v, (u, v) ∈ fg_red_edges H ↔ CapacityViolated u v ∈ printed H) ∧
    (∀ v, v ∈ fg_red_nodes H ↔ ConservationViolated v ∈ printed H).
Proof.
  eexists. split; [vm_compute; reflexivity|].
  apply (check_valid_flow_graph G_path flow_over "s" "t"). vm_compute; reflexivity.
Defined.

(** ** [level_bfs]: the levels along the parents *)

Lemma visit_layered R s u st v st' :
  (∀ w, ¬ posedge R w s) ->
  bfs_links R s st -> bfs_layered st ->
  visit R u st v = Ok st' -> bfs_layered st'.
Proof.
  intros Hin Hl Hlay [[-> _]|(Hnone & Hpe & lu & Hlu & ->)]%visit_Ok; [done|].
  assert (bfs_level st !! v = None) as Hv.
  { apply eq_None_not_Some. intros Hd. apply (lk_dom _ _ _ Hl) in Hd as [->|Hd].
    - by apply (Hin u).
    - rewrite Hnone in Hd. by destruct Hd. }
  intros x y; simpl. rewrite lookup_insert_Some. intros [[<- <-]|[Hne Hxy]].
  - exists lu. rewrite lookup_insert_eq. split; [|done].
    rewrite lookup_insert_ne; [done|]. intros <-. congruence.
  - destruct (Hlay x y Hxy) as (k & Hy & Hx). exists k.
    rewrite !lookup_insert_ne; [done|done|]. intros <-. congruence.
Qed.

Lemma bfs_loop_layered R s t fuel st st' :
  (∀ w, ¬ posedge R w s) ->
  bfs_links R s st -> bfs_layered st ->
  bfs_loop fuel R t st = Ok st' -> bfs_layered st'.
Proof.
  intros Hin. revert st. induction fuel as [|fuel IH]; intros st Hl Hlay; simpl; [done|].
  destruct (bfs_queue st) as [|u q] eqn:Hq; [by intros [= <-]|].
  case_decide; [by intros [= <-]|].
  intros (vs & Hvs & (st1 & Hloop & Hrest)%bind_Ok)%bind_Ok.
  assert (bfs_links R s st1 ∧ bfs_layered st1) as [? ?]; [|by apply (IH st1)].
  apply (for_each_invariant (visit R u)
           (fun st1 => bfs_links R s st1 ∧ bfs_layered st1) vs
           (mkBfs (bfs_parents st) (bfs_level st) q) st1); [| |done].
  - intros s1 x s2 _ [? ?] ?. split; [by eapply visit_links|by eapply visit_layered].
  - split; [by apply bfs_links_queue|done].
Qed.

(** X17.  When no edge of positive capacity enters the source, the parents
    returned by [level_bfs] go down by one level: every node with a parent
    has the level of its parent plus one, so the parent links are edges of
    the level graph. *)
Theorem level_bfs_parent_levels R flow s t parents level :
  (∀ w, ¬ posedge R w s) ->
  level_bfs R flow s t = Ok (parents, level) ->
  ∀ v u, parents !! v = Some u ->
         ∃ k, level !! u = Some k ∧ level !! v = Some (S k).
Proof.
  intros Hin (st & Hrun & -> & ->)%level_bfs_Ok_inv.
  eapply (bfs_loop_layered R s t); [done|apply bfs_links_init| |exact Hrun].
  intros v u; cbn [bfs_parents]. by rewrite lookup_empty.
Qed.

Lemma level_bfs_parent_levels_witness :
  ∃ k, ({["s" := 0%nat; "t" := 1%nat]} : gmap node nat) !! "s" = Some k ∧
       ({["s" := 0%nat; "t" := 1%nat]} : gmap node nat) !! "t" = Some (S k).
Proof.
  apply (level_bfs_parent_levels G_one [] "s" "t" parents_one).
  - intros w (d & Hd & _). revert Hd. unfold get_edge, G_one; simpl.
    case_decide; [simplify_eq|]. done.
  - vm_compute; reflexivity.
  - reflexivity.
Defined.

(** ** [check_valid_flow] and [residual_graph] *)

(** X18.  On a well-formed graph, a flow for which [check_valid_flow]
    returns without printing a capacity violation is accepted by
    [residual_graph]; and for a flow that [residual_graph] accepts,
    [check_valid_flow] either returns without printing a capacity violation
    or ends in the [OverflowError] of [math.isclose] or in the [ValueError]
    of a label with a number of more than 4300 digits. *)
Theorem residual_graph_accepts_checked G flow s t :
  wf_graph G ->
  ((∃ F, check_valid_flow G flow s t = Ok F ∧
         ∀ u v, CapacityViolated u v ∉ printed F) ->
   ∃ H, residual_graph G flow = Ok H) ∧
  ((∃ H, residual_graph G flow = Ok H) ->
   (∃ F, check_valid_flow G flow s t = Ok F ∧
         ∀ u v, CapacityViolated u v ∉ printed F) ∨
   check_valid_flow G flow s t = Raise OverflowError ∨
   check_valid_flow G flow s t = Raise ValueError).
Proof.
  intros Hwf. split.
  - intros (F & HF & Hno). unfold check_valid_flow in HF.
    apply check_loop_printed in HF as [Hedges Hp].
    apply residual_loop_Ok; [done|]. apply Forall_forall. intros [[u v] f] Hin.
    rewrite Forall_forall in Hedges. destruct (Hedges _ Hin) as [d Hd]. simpl in Hd.
    unfold item_ok; simpl. rewrite Hd.
    destruct (decide (f ≤ capacity d)) as [|Hgt]; [done|]. exfalso.
    apply (Hno u v), Hp. right. exists u, v, f. split; [done|]. left.
    split; [done|]. unfold cap0. rewrite Hd. lia.
  - intros [H HH]. apply residual_loop_item_ok in HH.
    rewrite Forall_forall in HH.
    pose proof (check_loop_result G flow s t flow (mkFlowReport [] flow.*1 [] [] []) Hwf)
      as Hres.
    fold (check_valid_flow G flow s t) in Hres.
    destruct Hres as [[_ [F HF]]|[_ (x & Hx & [[-> Hr]|[[-> _]|[-> _]]])]].
    + left. exists F. split; [done|].
      intros u v Hin. unfold check_valid_flow in HF.
      apply check_loop_printed in HF as [_ Hp]. apply Hp in Hin.
      destruct Hin as [?%elem_of_nil|(u' & v' & f & Hin & [[[= <- <-] Hf]|[? _]])];
        [done| |done].
      specialize (HH _ Hin).
      unfold item_ok, cap0 in *; simpl in *. destruct (get_edge G u v); [lia|done].
    + destruct Hr as (u & v & f & Hin & Hnone). specialize (HH _ Hin).
      unfold item_ok in HH; simpl in HH. by rewrite Hnone in HH.
    + right. by right.
    + right. by left.
Qed.

Lemma residual_graph_accepts_checked_witness :
  ((∃ F, check_valid_flow G_huge flow_huge "s" "t" = Ok F ∧
         ∀ u v, CapacityViolated u v ∉ printed F) ->
   ∃ H, residual_graph G_huge flow_huge = Ok H) ∧
  ((∃ H, residual_graph G_huge flow_huge = Ok H) ->
   (∃ F, check_valid_flow G_huge flow_huge "s" "t" = Ok F ∧
         ∀ u v, CapacityViolated u v ∉ printed F) ∨
   check_valid_flow G_huge flow_huge "s" "t" = Raise OverflowError ∨
   check_valid_flow G_huge flow_huge "s" "t" = Raise ValueError).
Proof.
  apply (residual_graph_accepts_checked G_huge flow_huge "s" "t").
  by_computation.
Defined.

(** ** [residual_graph] on floating-point numbers *)

Lemma b64_lookup_map (g : Binary64.EdgeData -> Binary64.EdgeData) u v es a b :
  Binary64.lookup_edge
    ((fun e => if decide (e.1 = (u, v)) then (e.1, g e.2) else e) <$> es) a b =
  if decide ((a, b) = (u, v)) then g <$> Binary64.lookup_edge es a b
  else Binary64.lookup_edge es a b.
Proof.
  induction es as [|[k d] es IH]; simpl.
  - by case_decide.
  - repeat case_decide; simplify_eq/=; try done.
Qed.

Lemma b64_lookup_snoc es u v d a b :
  Binary64.lookup_edge (es ++ [(u, v, d)]) a b =
  match Binary64.lookup_edge es a b with
  | Some x => Some x
  | None => if decide ((a, b) = (u, v)) then Some d else None
  end.
Proof.
  induction es as [|[k d'] es IH]; simpl.
  - repeat case_decide; simplify_eq/=; congruence.
  - destruct (decide (k = (a, b))); [done|apply IH].
Qed.

Lemma b64_get_update G u v g G' a b :
  Binary64.update_capacity G u v g = Ok G' ->
  Binary64.get_edge G' a b =
  if decide ((a, b) = (u, v))
  then (fun d => Binary64.mkEdgeData (g (Binary64.capacity d)) (Binary64.etype_rev d))
         <$> Binary64.get_edge G a b
  else Binary64.get_edge G a b.
Proof.
  unfold Binary64.update_capacity, Binary64.get_edge.
  destruct (Binary64.lookup_edge (Binary64.edges G) u v); [|done].
  intros [= <-]; simpl.
  apply (b64_lookup_map
           (fun d => Binary64.mkEdgeData (g (Binary64.capacity d)) (Binary64.etype_rev d))).
Qed.

Lemma b64_get_add_edge G u v c a b :
  Binary64.get_edge G u v = None ->
  Binary64.get_edge (Binary64.add_edge G u v c) a b =
  if decide ((a, b) = (u, v)) then Some (Binary64.mkEdgeData c true)
  else Binary64.get_edge G a b.
Proof.
  unfold Binary64.add_edge, Binary64.get_edge. intros Hnone. rewrite Hnone; simpl.
  rewrite b64_lookup_snoc. case_decide as Hk.
  - injection Hk as -> ->. by rewrite Hnone.
  - by destruct (Binary64.lookup_edge (Binary64.edges G) a b).
Qed.

(** One iteration on floats: the edge of the item is decreased, then its
    reverse is increased or created; the other edges are left alone. *)
Lemma b64_residual_step G H u v f H' :
  Binary64.residual_step G H (u, v, f) = Ok H' ->
  ∃ c d, Binary64.edge_capacity G u v = Ok c ∧ (c <? f)%float = false ∧
    Binary64.get_edge H u v = Some d ∧
    Binary64.get_edge H' v u =
      Some (Binary64.increased f
              (if decide (u = v) then Some (Binary64.decreased f d)
               else Binary64.get_edge H v u)) ∧
    (u ≠ v -> Binary64.get_edge H' u v = Some (Binary64.decreased f d)) ∧
    (∀ a b, (a, b) ≠ (u, v) -> (a, b) ≠ (v, u) ->
            Binary64.get_edge H' a b = Binary64.get_edge H a b).
Proof.
  unfold Binary64.residual_step.
  intros (c & Hc & Hrest)%bind_Ok. exists c.
  destruct (c <? f)%float eqn:Hcf; [done|].
  apply bind_Ok in Hrest as (H1 & HH1 & Hrest).
  pose proof (fun a b => b64_get_update _ _ _ _ _ a b HH1) as Hget1.
  assert (∃ d, Binary64.get_edge H u v = Some d) as [d Hd].
  { revert HH1. unfold Binary64.update_capacity.
    destruct (Binary64.get_edge H u v); [eauto|done]. }
  exists d. split_and!; [done..| | |].
  - unfold Binary64.has_edge in Hrest. specialize (Hget1 v u).
    destruct (Binary64.get_edge H1 v u) as [d1|] eqn:Hd1.
    + rewrite (b64_get_update _ _ _ _ _ v u Hrest), decide_True, Hd1 by done.
      simpl. f_equal. revert Hget1. case_decide as Hk.
      * injection Hk as -> _. rewrite decide_True, Hd by done. by intros [= ->].
      * rewrite decide_False by (intros ->; done). by intros <-.
    + injection Hrest as <-. rewrite b64_get_add_edge, decide_True by done.
      f_equal. revert Hget1. case_decide as Hk.
      * injection Hk as -> _. by rewrite Hd.
      * rewrite decide_False by (intros ->; done). by intros <-.
  - intros Hne. assert ((u, v) ≠ (v, u)) as Hk by (intros [= ? ?]; done).
    assert (Binary64.get_edge H1 u v = Some (Binary64.decreased f d)) as Hd1.
    { by rewrite Hget1, decide_True, Hd. }
    unfold Binary64.has_edge in Hrest.
    destruct (Binary64.get_edge H1 v u) eqn:Hvu.
    + by rewrite (b64_get_update _ _ _ _ _ u v Hrest), decide_False.
    + injection Hrest as <-. by rewrite b64_get_add_edge, decide_False.
  - intros a b Huv Hvu.
    assert (Binary64.get_edge H1 a b = Binary64.get_edge H a b) as <-.
    { rewrite Hget1. by rewrite decide_False. }
    unfold Binary64.has_edge in Hrest.
    destruct (Binary64.get_edge H1 v u) eqn:Hd1.
    + by rewrite (b64_get_update _ _ _ _ _ a b Hrest), decide_False.
    + injection Hrest as <-. by rewrite b64_get_add_edge, decide_False.
Qed.

Lemma b64_residual_loop_frame G flow H H' a b :
  for_each (Binary64.residual_step G) flow H = Ok H' ->
  (a, b) ∉ flow.*1 -> (b, a) ∉ flow.*1 ->
  Binary64.get_edge H' a b = Binary64.get_edge H a b.
Proof.
  revert H. induction flow as [|[[u v] f] flow IH]; intros H; simpl.
  - by intros [= <-].
  - intros (H1 & Hstep & Hloop)%bind_Ok
           [Hab Hab']%not_elem_of_cons [Hba Hba']%not_elem_of_cons.
    simpl in Hab, Hba. rewrite (IH _ Hloop) by done.
    apply b64_residual_step in Hstep as (c & d & _ & _ & _ & _ & _ & Hframe).
    apply Hframe; [done|]. intros [= ? ?]. apply Hba. congruence.
Qed.

Lemma b64_keys_split {V : Type} (l1 l2 : list (node * node * V)) k x :
  NoDup (l1 ++ (k, x) :: l2).*1 -> (k ∉ l1.*1) ∧ (k ∉ l2.*1).
Proof.
  rewrite fmap_app, fmap_cons. simpl.
  intros (_ & Hd & [Hk _]%NoDup_cons)%NoDup_app. split; [|done].
  intros Hin. apply (Hd _ Hin). apply list_elem_of_here.
Qed.

Lemma b64_edge_capacity G u v d :
  Binary64.get_edge G u v = Some d ->
  Binary64.edge_capacity G u v = Ok (Binary64.capacity d).
Proof. unfold Binary64.edge_capacity. by intros ->. Qed.

Lemma b64_edge_capacity_Ok G u v c :
  Binary64.edge_capacity G u v = Ok c -> is_Some (Binary64.get_edge G u v).
Proof. unfold Binary64.edge_capacity. destruct (Binary64.get_edge G u v); [eauto|done]. Qed.

(** X19.  [residual_graph] on floats, for a flow dictionary that it accepts:
    an item [(u, v) : f] whose reverse carries no flow leaves
    [capacity(u, v) - f] on its edge and [capacity(v, u) + f] on the
    reverse, or [f] when the reverse is created.  When the reverse item
    [(v, u) : f'] comes later in the dictionary, both edges are in [G] and
    the updates are made in that order: [(capacity(u, v) - f) + f'] and
    [(capacity(v, u) + f) - f'].  A self-loop ends with
    [(capacity(u, u) - f) + f]. *)
Theorem residual_graph_float_updates G flow H :
  NoDup flow.*1 ->
  Binary64.residual_graph G flow = Ok H ->
  (∀ u v f, (u, v, f) ∈ flow -> u ≠ v -> (v, u) ∉ flow.*1 ->
     ∃ d, Binary64.get_edge G u v = Some d ∧
       Binary64.edge_capacity H u v = Ok (Binary64.capacity d - f)%float ∧
       Binary64.edge_capacity H v u =
         Ok (match Binary64.get_edge G v u with
             | Some d' => (Binary64.capacity d' + f)%float
             | None => f
             end)) ∧
  (∀ l1 l2 l3 u v f f', flow = l1 ++ (u, v, f) :: l2 ++ (v, u, f') :: l3 ->
     ∃ d d', Binary64.get_edge G u v = Some d ∧ Binary64.get_edge G v u = Some d' ∧
       Binary64.edge_capacity H u v = Ok ((Binary64.capacity d - f) + f')%float ∧
       Binary64.edge_capacity H v u = Ok ((Binary64.capacity d' + f) - f')%float) ∧
  (∀ u f, (u, u, f) ∈ flow ->
     ∃ d, Binary64.get_edge G u u = Some d ∧
       Binary64.edge_capacity H u u = Ok ((Binary64.capacity d - f) + f)%float).
Proof.
  intros Hnd HH. unfold Binary64.residual_graph in HH. split_and!.
  - intros u v f Hin Hne Hvu.
    apply list_elem_of_split in Hin as (l1 & l2 & ->).
    destruct (b64_keys_split _ _ _ _ Hnd) as [Hk1 Hk2].
    rewrite fmap_app, fmap_cons in Hvu.
    apply not_elem_of_app in Hvu as [Hv1 [_ Hv2]%not_elem_of_cons].
    rewrite for_each_app in HH. apply bind_Ok in HH as (H1 & HH1 & HH).
    simpl in HH. apply bind_Ok in HH as (H2 & Hstep & HH2).
    apply b64_residual_step in Hstep as (c & d & _ & _ & Hd & Hrev & Hfwd & _).
    rewrite (b64_residual_loop_frame _ _ _ _ u v HH1) in Hd by done.
    rewrite decide_False in Hrev by done.
    rewrite (b64_residual_loop_frame _ _ _ _ v u HH1) in Hrev by done.
    exists d. split_and!; [done| |].
    + apply (b64_edge_capacity _ _ _ (Binary64.decreased f d)).
      rewrite (b64_residual_loop_frame _ _ _ _ u v HH2) by done. by apply Hfwd.
    + unfold Binary64.edge_capacity.
      rewrite (b64_residual_loop_frame _ _ _ _ v u HH2), Hrev by done.
      unfold Binary64.copy, Binary64.get_edge; simpl.
      by destruct (Binary64.lookup_edge (Binary64.edges G) v u).
  - intros l1 l2 l3 u v f f' ->.
    destruct (b64_keys_split _ _ _ _ Hnd) as [Hu1 Hu23].
    rewrite fmap_app, fmap_cons in Hu23.
    apply not_elem_of_app in Hu23 as [Hu2 [Hne Hu3]%not_elem_of_cons]. simpl in Hne.
    assert (l1 ++ (u, v, f) :: l2 ++ (v, u, f') :: l3
            = (l1 ++ (u, v, f) :: l2) ++ (v, u, f') :: l3) as Heq.
    { by rewrite <- app_assoc. }
    rewrite Heq in Hnd. destruct (b64_keys_split _ _ _ _ Hnd) as [Hv12 Hv3].
    rewrite fmap_app, fmap_cons in Hv12.
    apply not_elem_of_app in Hv12 as [Hv1 [_ Hv2]%not_elem_of_cons].
    assert (u ≠ v) as Huv by (intros ->; done).
    rewrite for_each_app in HH. apply bind_Ok in HH as (H1 & HH1 & HH).
    simpl in HH. apply bind_Ok in HH as (H2 & Hstep1 & HH).
    rewrite for_each_app in HH. apply bind_Ok in HH as (H3 & HH3 & HH).
    simpl in HH. apply bind_Ok in HH as (H4 & Hstep2 & HH4).
    apply b64_residual_step in Hstep1 as (c & d & _ & _ & Hd & Hrev & Hfwd & _).
    apply b64_residual_step in Hstep2 as (c' & dd & Hc' & _ & Hdd & Hrev' & Hfwd' & _).
    apply b64_edge_capacity_Ok in Hc' as [d' Hd'].
    rewrite (b64_residual_loop_frame _ _ _ _ u v HH1) in Hd by done.
    rewrite decide_False in Hrev by done.
    rewrite (b64_residual_loop_frame _ _ _ _ v u HH1) in Hrev by done.
    assert (Binary64.get_edge (Binary64.copy G) v u = Some d') as Hd'' by done.
    rewrite Hd'' in Hrev.
    rewrite (b64_residual_loop_frame _ _ _ _ v u HH3), Hrev in Hdd by done.
    injection Hdd as <-.
    rewrite decide_False in Hrev' by (intros ->; done).
    rewrite (b64_residual_loop_frame _ _ _ _ u v HH3), (Hfwd Huv) in Hrev' by done.
    exists d, d'. split_and!; [done..| |].
    + unfold Binary64.edge_capacity.
      by rewrite (b64_residual_loop_frame _ _ _ _ u v HH4), Hrev' by done.
    + unfold Binary64.edge_capacity.
      rewrite (b64_residual_loop_frame _ _ _ _ v u HH4) by done.
      rewrite Hfwd' by (intros ->; done). done.
  - intros u f Hin.
    apply list_elem_of_split in Hin as (l1 & l2 & ->).
    destruct (b64_keys_split _ _ _ _ Hnd) as [Hk1 Hk2].
    rewrite for_each_app in HH. apply bind_Ok in HH as (H1 & HH1 & HH).
    simpl in HH. apply bind_Ok in HH as (H2 & Hstep & HH2).
    apply b64_residual_step in Hstep as (c & d & _ & _ & Hd & Hrev & _ & _).
    rewrite (b64_residual_loop_frame _ _ _ _ u u HH1) in Hd by done.
    rewrite decide_True in Hrev by done.
    exists d. split; [done|]. unfold Binary64.edge_capacity.
    by rewrite (b64_residual_loop_frame _ _ _ _ u u HH2), Hrev by done.
Qed.

Lemma residual_graph_float_updates_witness :
  ∃ H, Binary64.residual_graph Binary64.G_pair Binary64.flow_pair = Ok H ∧
    Binary64.edge_capacity H "a" "b" = Ok ((0.5 - 0.1) + 0.2)%float ∧
    Binary64.edge_capacity H "b" "a" = Ok ((0.3 + 0.1) - 0.2)%float.
Proof.
  eexists. split; [vm_compute; reflexivity|].
  destruct (residual_graph_float_updates Binary64.G_pair Binary64.flow_pair
              _ ltac:(by_computation) eq_refl) as (_ & HB & _).
  destruct (HB [] [] [] "a" "b" 0.1%float 0.2%float eq_refl)
    as (d & d' & [= <-] & [= <-] & Hab & Hba).
  split; [exact Hab|exact Hba].
Defined.
